(** * iris.etl.scm: importing git scm data into IRIS

    A shallow embedding of [src/iris/etl/scm.py] and the properties of its
    specification.  The module parses two texts (domains and git trees),
    builds a cache of user identities, transforms the parsed blocks into
    entity dictionaries and relation pairs, and hands them to a loader that
    reconciles them with the persisted tables.

    Layout: Part I holds the embedding (Python values, the functions of
    scm.py, the collaborators scm.py imports), Part II the theory. *)

From Stdlib Require Import Ascii String.
From stdpp Require Import gmap strings list fin_maps.

(** ** Python values *)

(** Exceptions the embedded code can raise. *)
Inductive exn :=
  | KeyError (key : string)
  | IndexError
  | TypeError
  | ValueError
  | UnicodeDecodeError
  | LookupError
  | DanglingReference
  | OtherError (what : string).

(** The outcome of a call: a value, or a raised exception. *)
Inductive result (A : Type) :=
  | Ok (a : A)
  | Raise (e : exn).
Arguments Ok {A} a.
Arguments Raise {A} e.

#[global] Instance result_ret : MRet result := λ A a, Ok a.
#[global] Instance result_bind : MBind result := λ A B f r,
  match r with Ok a => f a | Raise e => Raise e end.
#[global] Instance result_fmap : FMap result := λ A B f r,
  match r with Ok a => Ok (f a) | Raise e => Raise e end.

(** [for x in l: ...] where the body may raise: the first exception stops
    the loop. *)
Fixpoint for_each {A S : Type} (body : S → A → result S) (s : S) (l : list A)
    : result S :=
  match l with
  | [] => Ok s
  | x :: l' => s' ← body s x; for_each body s' l'
  end.

(** A dict with string keys and string values: the entity dictionaries that
    scm.py builds ([{'name': ..., 'domain__name': ...}]) and the user records
    of the identity cache. *)
Abbreviation Entity := (gmap string string).

(** A Python 2 string argument: a byte string ([str]) or a [unicode]. *)
Inductive pystring :=
  | Str (bytes : list Byte.byte)
  | Unicode (text : string).

(** A file object, as from_file uses it: [read()] returns the content, a
    byte string or, for a file opened with a codec, a unicode text. *)
Record File := { read : pystring }.

(** ** String methods

    Unicode text is embedded as [string]; characters are the code points
    below 256. *)

(** [s.startswith(p)] *)
Fixpoint startswith (p s : string) : bool :=
  match p, s with
  | "", _ => true
  | String a p', String b s' => if decide (a = b) then startswith p' s' else false
  | String _ _, "" => false
  end.

(** [s.endswith(suf)] *)
Definition endswith (suf s : string) : bool :=
  startswith (String.rev suf) (String.rev s).

Fixpoint drop_chars (n : nat) (s : string) : string :=
  match n, s with
  | S n', String _ s' => drop_chars n' s'
  | _, _ => s
  end.

(** The first occurrence of [sep] in [s]: the text before it and the text
    after it. [sep] is never empty in scm.py. *)
Fixpoint partition_at (sep s : string) : option (string * string) :=
  if startswith sep s then Some ("", drop_chars (String.length sep) s)
  else match s with
       | "" => None
       | String c s' =>
           match partition_at sep s' with
           | Some (a, b) => Some (String c a, b)
           | None => None
           end
       end.

(** [s.split(sep, 1)]: a list of one string ([s] itself, when [sep] does not
    occur) or of two. The result is kept as the head and the optional second
    element, so that [len(parts) == 1] reads [snd parts = None]. *)
Definition split1 (sep s : string) : string * option string :=
  match partition_at sep s with
  | Some (a, b) => (a, Some b)
  | None => (s, None)
  end.

(** [sep in s] *)
Definition contains (sep s : string) : bool :=
  bool_decide (is_Some (partition_at sep s)).

(** [unicode.isspace] on one character: the white space below U+0100. *)
Definition is_space (c : ascii) : bool :=
  match c with
  | "009" | "010" | "011" | "012" | "013" | "028" | "029" | "030" | "031"
  | " " | "133" | "160" => true
  | _ => false
  end%char.

Fixpoint lstrip (s : string) : string :=
  match s with
  | String c s' => if is_space c then lstrip s' else s
  | "" => ""
  end.

Definition rstrip (s : string) : string := String.rev (lstrip (String.rev s)).

(** [s.strip()] *)
Definition strip (s : string) : string := rstrip (lstrip s).

(** [unicode.lower] on one character below U+0100: A-Z and the Latin-1
    capitals U+00C0..U+00DE (U+00D7, the multiplication sign, apart). *)
Definition lower_char (c : ascii) : ascii :=
  let n := Ascii.nat_of_ascii c in
  if bool_decide (65 ≤ n ≤ 90)%nat
     || (bool_decide (192 ≤ n ≤ 222)%nat && negb (bool_decide (n = 215)))
  then Ascii.ascii_of_nat (n + 32) else c.

(** [s.lower()] *)
Fixpoint lower (s : string) : string :=
  match s with
  | "" => ""
  | String c s' => String (lower_char c) (lower s')
  end.

(** [for c in s]: the characters of a string, each a string of length one. *)
Fixpoint chars (s : string) : list string :=
  match s with
  | "" => []
  | String c s' => String c "" :: chars s'
  end.

(** ** scm.py: constants *)

Definition MAPPING : list (string * string) :=
  [ ("A", "ARCHITECT"); ("B", "BRANCH"); ("C", "COMMENTS"); ("D", "DOMAIN");
    ("I", "INTEGRATOR"); ("L", "LICENSES"); ("M", "MAINTAINER");
    ("N", "PARENT"); ("O", "DESCRIPTION"); ("R", "REVIEWER");
    ("T", "TREE PATH"); ("SL", "SUBDOMAIN_LEADER") ].

Definition NONAME : string := "Uncategorized".

(** ** scm.py: parse_name *)

(** parse domain name and subdomain name from the given name *)
Definition parse_name (name : string) : string * string :=
  let parts := split1 "/" name in
  let parts := (strip (fst parts), strip <$> snd parts) in
  match snd parts with
  | None =>
      if bool_decide (fst parts ≠ "") then (fst parts, NONAME)
      else (NONAME, NONAME)
  | Some sname => (fst parts, sname)
  end.


(** [data[key]] on an entity dictionary *)
Definition getitem (d : Entity) (key : string) : result string :=
  match d !! key with
  | Some v => Ok v
  | None => Raise (KeyError key)
  end.

(** Truth value of a dict: empty is false. *)
Definition truthy (d : Entity) : bool := bool_decide (d ≠ ∅).

(** ** Blocks

    [parse_blocks(text, marker, MAPPING)] lives in iris.etl.parser, outside
    this module.  scm.py reads the dicts it yields in one way only: the value
    under the marker's long name is a string ([parse_name(data['DOMAIN'])],
    [path = data['TREE PATH']]) and the value under every other key is a
    list of strings ([data.get('DOMAIN', [no_domain])[0]], [for ustring in
    data[role]]).  A block is embedded with that shape; which key is the
    marker is known where the block is used ("DOMAIN" for the blocks of the
    domain text, "TREE PATH" for those of the tree text). *)
Record Block := {
  marker_value : string;
  fields : gmap string (list string)
}.

(** [key in data] *)
Definition has_key (marker : string) (data : Block) (key : string) : bool :=
  bool_decide (key = marker) || bool_decide (is_Some (fields data !! key)).

(** [set(data.keys())] *)
Definition key_set (marker : string) (data : Block) : gset string :=
  {[ marker ]} ∪ dom (fields data).

(** [for x in data[key]], for a key of the block: the elements of a list
    field, or the characters of the marker's string. *)
Definition iter_item (marker : string) (data : Block) (key : string) : list string :=
  if decide (key = marker) then chars (marker_value data)
  else default [] (fields data !! key).

(** ** What scm.py imports *)

(** The database tables (Django models) scm.py names. *)
Inductive Table :=
  | User | Domain | SubDomain | GitTree | License
  | DomainRole | SubDomainRole | GitTreeRole | UserParty.

#[global] Instance Table_eq_dec : EqDecision Table.
Proof. solve_decision. Defined.

(** Names imported from iris.core.models.user and iris.etl.parser; their
    code is not part of this module, so the embedding is parametric in
    them.  Two behaviours of the Python runtime on which scm.py relies are
    parameters as well: [decode] stands for [str.decode(coding)], and
    [iter_set] for the order in which [for x in s] goes through a set [s]
    of strings.  Python leaves that order open (it follows the hashes of
    the elements, not the order in which they were written); what is known
    of it is that every element of the set comes once. *)
Class Imports := {
  role_choices : list (string * string);
  party_choices : list (string * string);
  parse_blocks : string → string → list (string * string) → result (list Block);
  decode : list Byte.byte → string → result string;
  iter_set : gset string → list string;
  iter_set_elements : ∀ s, iter_set s ≡ₚ elements s
}.

(** The interface of iris.etl.parser.UserCache as scm.py uses it:
    [UserCache()], [uc.update(ustring)], [uc.get(ustring)], [uc.all()].
    [update] mutates the cache; here it returns the new one. *)
Class UserCacheOps (UC : Type) := {
  UserCache_new : UC;
  UserCache_update : UC → string → UC;
  UserCache_get : UC → string → option Entity;
  UserCache_all : UC → list Entity
}.

(** Computations on a world [W] (the database and the loader's working
    memory) that may raise: the world reached and the outcome. *)
Definition M (W A : Type) : Type := W → W * result A.

#[global] Instance M_ret {W} : MRet (M W) := λ A a w, (w, Ok a).
#[global] Instance M_bind {W} : MBind (M W) := λ A B f m w,
  match m w with
  | (w', Ok a) => f a w'
  | (w', Raise e) => (w', Raise e)
  end.

(** A pure step inside a computation. *)
Definition lift {W A} (r : result A) : M W A := λ w, (w, r).

(** The interface of the loader returned by iris.etl.loader
    [get_default_loader()]: [sync_entity] returns the deletion closure,
    itself a computation to run later. *)
Class Loader (W : Type) := {
  get_default_loader : M W unit;
  sync_entity : list Entity → Table → M W (M W unit);
  sync_nnr : list (Entity * Entity) → Table → Table → M W unit
}.

Section scm.
Context {imports : Imports} {UC : Type} {cache : UserCacheOps UC}.

(** [ROLES = {i for i, _ in role_choices()}]: a set. *)
Definition ROLES : gset string := list_to_set (role_choices.*1).

(** [ROLES & set(data.keys())]: the roles among the keys of the block. *)
Definition role_set (marker : string) (data : Block) : gset string :=
  ROLES ∩ key_set marker data.

(** [for role in ROLES & set(data.keys())]: the roles among the keys of the
    block, in the order in which Python iterates that set.  The order is
    taken to be a function of the set; no statement below depends on
    which one it is. *)
Definition role_keys (marker : string) (data : Block) : list string :=
  iter_set (role_set marker data).

(** ** scm.py: build_user_cache *)

(** One of the two loops of build_user_cache. *)
Definition update_from (marker : string) (uc : UC) (blocks : list Block) : UC :=
  foldl (λ uc data,
    foldl (λ uc role,
      foldl (λ uc ustring, UserCache_update uc ustring)
        uc (iter_item marker data role))
      uc (role_keys marker data))
    uc blocks.

(** Go over all scm data to build a full UserCache *)
Definition build_user_cache (domains_data trees_data : list Block) : UC :=
  let uc := UserCache_new in
  let uc := update_from "DOMAIN" uc domains_data in
  let uc := update_from "TREE PATH" uc trees_data in
  uc.

(** ** scm.py: rolename, subrolename *)

(** create role name: ['%s: %s' % (role, name)] *)
Definition rolename (role name : string) : string :=
  role +:+ ": " +:+ name.

(** create subdomain role name: ['%s: %s-%s' % (role, dname, sname)] *)
Definition subrolename (role dname sname : string) : string :=
  role +:+ ": " +:+ dname +:+ "-" +:+ sname.

(** ** scm.py: transform_domains *)

(** The six lists transform_domains builds and returns, in the order of the
    returned tuple. *)
Record DomainTables := {
  domains : list Entity;
  subdomains : list Entity;
  domainroles : list Entity;
  subdomainroles : list Entity;
  domainrole_users : list (Entity * Entity);
  subdomainrole_users : list (Entity * Entity)
}.

Definition domains_append (x : Entity) (t : DomainTables) : DomainTables :=
  {| domains := domains t ++ [x]; subdomains := subdomains t;
     domainroles := domainroles t; subdomainroles := subdomainroles t;
     domainrole_users := domainrole_users t;
     subdomainrole_users := subdomainrole_users t |}.

Definition subdomains_append (x : Entity) (t : DomainTables) : DomainTables :=
  {| domains := domains t; subdomains := subdomains t ++ [x];
     domainroles := domainroles t; subdomainroles := subdomainroles t;
     domainrole_users := domainrole_users t;
     subdomainrole_users := subdomainrole_users t |}.

Definition domainroles_append (x : Entity) (t : DomainTables) : DomainTables :=
  {| domains := domains t; subdomains := subdomains t;
     domainroles := domainroles t ++ [x]; subdomainroles := subdomainroles t;
     domainrole_users := domainrole_users t;
     subdomainrole_users := subdomainrole_users t |}.

Definition subdomainroles_append (x : Entity) (t : DomainTables) : DomainTables :=
  {| domains := domains t; subdomains := subdomains t;
     domainroles := domainroles t; subdomainroles := subdomainroles t ++ [x];
     domainrole_users := domainrole_users t;
     subdomainrole_users := subdomainrole_users t |}.

Definition domainrole_users_append (x : Entity * Entity) (t : DomainTables)
    : DomainTables :=
  {| domains := domains t; subdomains := subdomains t;
     domainroles := domainroles t; subdomainroles := subdomainroles t;
     domainrole_users := domainrole_users t ++ [x];
     subdomainrole_users := subdomainrole_users t |}.

Definition subdomainrole_users_append (x : Entity * Entity) (t : DomainTables)
    : DomainTables :=
  {| domains := domains t; subdomains := subdomains t;
     domainroles := domainroles t; subdomainroles := subdomainroles t;
     domainrole_users := domainrole_users t;
     subdomainrole_users := subdomainrole_users t ++ [x] |}.

(** transform subdomain item *)
Definition _trans_subdomain (uc : UC) (data : Block) (t : DomainTables)
    : DomainTables :=
  let '(dname, sname) := parse_name (marker_value data) in
  let t := subdomains_append {[ "name" := sname; "domain__name" := dname ]} t in
  foldl (λ t role,
    let sr : Entity := {[ "role" := role;
                          "subdomain__name" := sname;
                          "subdomain__domain__name" := dname ]} in
    let t := subdomainroles_append
               (<["name" := subrolename role dname sname]> sr) t in
    foldl (λ t ustring,
      match UserCache_get uc ustring with
      | Some user =>
          if truthy user then subdomainrole_users_append (sr, user) t else t
      | None => t
      end) t (iter_item "DOMAIN" data role))
    t (role_keys "DOMAIN" data).

(** transform domain item *)
Definition _trans_domain (uc : UC) (data : Block) (t : DomainTables)
    : DomainTables :=
  let name := marker_value data in
  let t := domains_append {[ "name" := name ]} t in
  foldl (λ t role,
    let dr : Entity := {[ "role" := role; "domain__name" := name ]} in
    let t := domainroles_append (<["name" := rolename role name]> dr) t in
    foldl (λ t ustring,
      match UserCache_get uc ustring with
      | Some user =>
          if truthy user then domainrole_users_append (dr, user) t else t
      | None => t
      end) t (iter_item "DOMAIN" data role))
    t (role_keys "DOMAIN" data).

(** Transform to Domain, SubDomain, DomainRole, SubDomainRole,
    DomainRole.user_set and SubDomainRole.user_set *)
Definition transform_domains (domains_data : list Block) (uc : UC)
    : result DomainTables :=
  let t := {| domains := [ {[ "name" := NONAME ]} ]; subdomains := [];
              domainroles := []; subdomainroles := [];
              domainrole_users := []; subdomainrole_users := [] |} in
  let t := foldl (λ t data,
    if has_key "DOMAIN" data "PARENT"
    then (* assume that a submain can't appear before its parent *)
      _trans_subdomain uc data t
    else _trans_domain uc data t) t domains_data in
  (* Uncategorized Subdomain *)
  for_each (λ t domain,
    name ← getitem domain "name";
    Ok (subdomains_append {[ "name" := NONAME; "domain__name" := name ]} t))
    t (domains t).

(** ** scm.py: transform_trees *)

(** The four lists transform_trees builds and returns. *)
Record TreeTables := {
  trees : list Entity;
  tree_licenses : list (Entity * Entity);
  treeroles : list Entity;
  treerole_users : list (Entity * Entity)
}.

Definition trees_append (x : Entity) (t : TreeTables) : TreeTables :=
  {| trees := trees t ++ [x]; tree_licenses := tree_licenses t;
     treeroles := treeroles t; treerole_users := treerole_users t |}.

Definition tree_licenses_append (x : Entity * Entity) (t : TreeTables)
    : TreeTables :=
  {| trees := trees t; tree_licenses := tree_licenses t ++ [x];
     treeroles := treeroles t; treerole_users := treerole_users t |}.

Definition treeroles_append (x : Entity) (t : TreeTables) : TreeTables :=
  {| trees := trees t; tree_licenses := tree_licenses t;
     treeroles := treeroles t ++ [x]; treerole_users := treerole_users t |}.

Definition treerole_users_append (x : Entity * Entity) (t : TreeTables)
    : TreeTables :=
  {| trees := trees t; tree_licenses := tree_licenses t;
     treeroles := treeroles t; treerole_users := treerole_users t ++ [x] |}.

(** [' / '.join([a, b])] *)
Definition join_slash (a b : string) : string := a +:+ " / " +:+ b.

(** The body of the loop of transform_trees, for one block. *)
Definition transform_tree (uc : UC) (t : TreeTables) (data : Block)
    : result TreeTables :=
  let no_domain := join_slash NONAME NONAME in
  let path := marker_value data in
  (* if DOMAIN exists it must only have one value *)
  name ← match default [no_domain] (fields data !! "DOMAIN") with
         | name :: _ => Ok (if bool_decide (name ≠ "") then name else no_domain)
         | [] => Raise IndexError
         end;
  let name := if negb (contains " / " name) then join_slash name NONAME
              else name in
  '(dname, sname) ← match split1 " / " name with
                    | (dname, Some sname) => Ok (dname, sname)
                    | (_, None) => Raise ValueError
                    end;
  let t := trees_append {[ "gitpath" := path;
                           "subdomain__name" := sname;
                           "subdomain__domain__name" := dname ]} t in
  let t := foldl (λ t licen,
    tree_licenses_append ({[ "gitpath" := path ]}, {[ "shortname" := licen ]}) t)
    t (default [] (fields data !! "LICENSES")) in
  Ok (foldl (λ t role,
    let tr : Entity := {[ "role" := role; "gittree__gitpath" := path ]} in
    let t := treeroles_append (<["name" := rolename role path]> tr) t in
    foldl (λ t ustring,
      match UserCache_get uc ustring with
      | Some user =>
          if truthy user then treerole_users_append (tr, user) t else t
      | None => t
      end) t (iter_item "TREE PATH" data role))
    t (role_keys "TREE PATH" data)).

(** Transform to GitTree, GitTree.licenses GitTreeRole, GitTreeRole.user_set *)
Definition transform_trees (trees_data : list Block) (uc : UC)
    : result TreeTables :=
  for_each (transform_tree uc)
    {| trees := []; tree_licenses := []; treeroles := []; treerole_users := [] |}
    trees_data.

(** ** scm.py: transform_parties *)

(** The party of one user, from the text after the first "@" of the email. *)
Definition party_of (email : string) : result string :=
  match snd (split1 "@" email) with
  | Some domain_part =>
      let suffix := lower domain_part in
      Ok (if endswith "intel.com" suffix then "INTEL"
          else if endswith "samsung.com" suffix then "SAMSUNG"
          else "TIZEN")
  | None => Raise IndexError
  end.

(** Transform to UserParty and UserParty.user_set *)
Definition transform_parties (users : list Entity)
    : result (list Entity * list (Entity * Entity)) :=
  let parties : list Entity :=
    (λ i, {[ "party" := i.1; "name" := i.2 ]}) <$> party_choices in
  party_users ← for_each (λ party_users user,
    email ← getitem user "email";
    party ← party_of email;
    Ok (party_users ++ [(({[ "party" := party ]} : Entity), user)]))
    [] users;
  Ok (parties, party_users).

(** ** scm.py: transform_users *)

(** [dict(username=i['email'], **i)]: the call raises TypeError when [i]
    already has the keyword's key. *)
Definition with_username (i : Entity) : result Entity :=
  email ← getitem i "email";
  if bool_decide (is_Some (i !! "username")) then Raise TypeError
  else Ok (<["username" := email]> i).

(** Transform cached users to database compatible users *)
Definition transform_users (ucusers : list Entity) : result (list Entity) :=
  for_each (λ users i, u ← with_username i; Ok (users ++ [u])) [] ucusers.

(** ** scm.py: from_unicode, from_string *)

Context {W : Type} {loader : Loader W}.

(** Import scm data from unicode string. *)
Definition from_unicode (domain_str gittree_str : string) : M W unit :=
  (* 1.parse *)
  domains_data ← lift (parse_blocks domain_str "D" MAPPING);
  trees_data ← lift (parse_blocks gittree_str "T" MAPPING);
  (* 2.extract and transform *)
  let uc := build_user_cache domains_data trees_data in
  users ← lift (transform_users (UserCache_all uc));
  d ← lift (transform_domains domains_data uc);
  t ← lift (transform_trees trees_data uc);
  '(parties, party_users) ← lift (transform_parties users);
  (* 3.load *)
  get_default_loader;;
  sync_entity users User;;
  delete_domains ← sync_entity (domains d) Domain;
  delete_subdomains ← sync_entity (subdomains d) SubDomain;
  delete_domainroles ← sync_entity (domainroles d) DomainRole;
  delete_subdomainroles ← sync_entity (subdomainroles d) SubDomainRole;
  delete_trees ← sync_entity (trees t) GitTree;
  delete_treeroles ← sync_entity (treeroles t) GitTreeRole;
  delete_partyroles ← sync_entity parties UserParty;
  sync_nnr (domainrole_users d) DomainRole User;;
  sync_nnr (subdomainrole_users d) SubDomainRole User;;
  sync_nnr (tree_licenses t) GitTree License;;
  sync_nnr (treerole_users t) GitTreeRole User;;
  sync_nnr party_users UserParty User;;
  delete_partyroles;;
  delete_treeroles;;
  delete_subdomainroles;;
  delete_domainroles;;
  delete_trees;;
  delete_subdomains;;
  delete_domains.

(** Import scm data from string.  If input string is not unicode, try to
    decode them using [coding]; [coding = None] is the call without the
    argument, which takes the default 'utf8'. *)
Definition from_string (domain_str gittree_str : pystring)
    (coding : option string) : M W unit :=
  let coding := default "utf8" coding in
  domain_str ← lift (match domain_str with
                     | Str bytes => decode bytes coding
                     | Unicode text => Ok text
                     end);
  gittree_str ← lift (match gittree_str with
                      | Str bytes => decode bytes coding
                      | Unicode text => Ok text
                      end);
  from_unicode domain_str gittree_str.

(** import scm data from file.  [dfile] and [tfile] should be file objects
    not file names. *)
Definition from_file (dfile tfile : File) : M W unit :=
  from_string (read dfile) (read tfile) None.

End scm.

(** ** The identity cache, from the specification *)

Module IdentityCache.

(** Modelled from the spec: the identity-string parser of iris.etl.parser,
    which is not part of scm.py.  The spec (4.2) asks for the shape
    "Display Name <email>", a missing display name falling back to the
    local part of the email, and a malformed entry registering nothing.
    Result: the display name and the email, or [None] when malformed. *)
Definition parse_user (ustring : string) : option (string * string) :=
  match split1 "<" ustring with
  | (name, Some rest) =>
      match split1 ">" rest with
      | (email, Some _) =>
          let email := strip email in
          let name := strip name in
          if bool_decide (email = "") then None
          else Some (if bool_decide (name = "") then fst (split1 "@" email)
                     else name, email)
      | (_, None) => None
      end
  | (_, None) => None
  end.

(** Modelled from the spec: iris.etl.parser.UserCache, which is not part of
    scm.py.  The spec (3, 4.2) describes a lookup keyed by the raw identity
    string whose values are canonical records, unique by email compared
    without regard to case.  [by_ustring] sends a registered raw string to
    the lowercased email, [by_email] the lowercased email to the canonical
    record, which is the first one registered for it. *)
Record UserCache := {
  by_ustring : gmap string string;
  by_email : gmap string Entity
}.

(** Modelled from the spec: [UserCache()], the cache with nothing
    registered. *)
Definition new : UserCache := {| by_ustring := ∅; by_email := ∅ |}.

(** Modelled from the spec: [update(raw_string)] registers an identity, and
    registers nothing for a malformed string. *)
Definition update (uc : UserCache) (ustring : string) : UserCache :=
  match parse_user ustring with
  | None => uc
  | Some (name, email) =>
      let key := lower email in
      {| by_ustring := <[ustring := key]> (by_ustring uc);
         by_email := match by_email uc !! key with
                     | Some _ => by_email uc
                     | None => <[key := {[ "name" := name; "email" := email ]}]>
                                 (by_email uc)
                     end |}
  end.

(** Modelled from the spec: [get(raw_string)] is the identity record or the
    absence marker ([None]). *)
Definition get (uc : UserCache) (ustring : string) : option Entity :=
  key ← by_ustring uc !! ustring; by_email uc !! key.

(** Modelled from the spec: [all()] is the set of canonical identity
    records. *)
Definition all (uc : UserCache) : list Entity :=
  (map_to_list (by_email uc)).*2.

#[global] Instance ops : UserCacheOps UserCache := {
  UserCache_new := new;
  UserCache_update := update;
  UserCache_get := get;
  UserCache_all := all
}.

End IdentityCache.

(** ** The reconciliation engine, from the specification *)

Definition Table_code (T : Table) : nat :=
  match T with
  | User => 0 | Domain => 1 | SubDomain => 2 | GitTree => 3 | License => 4
  | DomainRole => 5 | SubDomainRole => 6 | GitTreeRole => 7 | UserParty => 8
  end.

Definition Table_of_code (n : nat) : Table :=
  match n with
  | 0 => User | 1 => Domain | 2 => SubDomain | 3 => GitTree | 4 => License
  | 5 => DomainRole | 6 => SubDomainRole | 7 => GitTreeRole | _ => UserParty
  end.

Lemma Table_of_code_code (T : Table) : Table_of_code (Table_code T) = T.
Proof. by destruct T. Qed.

#[global] Instance Table_countable : Countable Table :=
  inj_countable' Table_code Table_of_code Table_of_code_code.

(** [[f(x) for x in l]] where [f] may raise. *)
Fixpoint map_result {A B : Type} (f : A → result B) (l : list A)
    : result (list B) :=
  match l with
  | [] => Ok []
  | x :: l' => y ← f x; ys ← map_result f l'; Ok (y :: ys)
  end.

Module Engine.

(** Natural keys are lists of field values. *)
Abbreviation Key := (list string).

(** Modelled from the spec: iris.etl.loader, which is not part of scm.py.
    The schema the loader reads from the models: the fields that make the
    natural key of each table, and the parents a key refers to.  A parent
    is given with the prefix of the path: with [("domain", Domain)] among
    the parents of SubDomain, the field [domain__name] of a subdomain holds
    the field [name] of its domain. *)
Record Schema := {
  key_fields : Table → list string;
  parents : Table → list (string * Table)
}.

(** Modelled from the spec: the persisted store (6, "a store of
    identity-keyed records"), and the keys the loader has resolved in this
    run (5):
    - [rows]: the rows of every table, by table and natural key;
    - [edges]: the rows of the many-to-many relations, by the two tables
      and the natural keys of the two ends;
    - [desired]: for each table synced by this loader, the desired keys
      of its latest sync. *)
Record World := {
  rows : gmap (Table * Key) Entity;
  edges : gset (Table * Table * (Key * Key));
  desired : gmap Table (gset Key)
}.

(** The persisted part of a world. *)
Definition persisted (w : World)
    : gmap (Table * Key) Entity * gset (Table * Table * (Key * Key)) :=
  (rows w, edges w).

Section engine.
Context (schema : Schema).

(** The natural key of a (partial) entity dict for table [T]. *)
Definition natural_key (T : Table) (d : Entity) : result Key :=
  map_result (getitem d) (key_fields schema T).

(** The natural key of the parent a dict refers to by the path [prefix]. *)
Definition parent_key (prefix : string) (P : Table) (d : Entity) : result Key :=
  map_result (λ f, getitem d (prefix +:+ "__" +:+ f)) (key_fields schema P).

(** Modelled from the spec: a key resolves against a table when the table
    holds a row under it; otherwise the reference dangles. *)
Definition resolve_row (T : Table) (w : World) (d : Entity) : result Key :=
  k ← natural_key T d;
  if bool_decide (is_Some (rows w !! (T, k))) then Ok k
  else Raise DanglingReference.

(** Modelled from the spec: step 1 of sync_entity for one desired entity,
    its natural key, every parent it refers to being a row of the parent's
    table. *)
Definition resolve (T : Table) (w : World) (d : Entity) : result Key :=
  k ← natural_key T d;
  _ ← map_result (λ p : string * Table,
         pk ← parent_key p.1 p.2 d;
         if bool_decide (is_Some (rows w !! (p.2, pk))) then Ok pk
         else Raise DanglingReference) (parents schema T);
  Ok k.

(** The natural keys table [T] holds. *)
Definition table_keys (T : Table) (m : gmap (Table * Key) Entity) : list Key :=
  omap (λ x : Table * Key * Entity,
    if decide (x.1.1 = T) then Some x.1.2 else None) (map_to_list m).

(** Modelled from the spec (4.3, steps 3 and 5): insert the row, or update
    the fields the desired dict has; the other fields of an existing row
    stay. *)
Definition upsert (T : Table) (m : gmap (Table * Key) Entity)
    (kd : Key * Entity) : gmap (Table * Key) Entity :=
  <[(T, kd.1) := kd.2 ∪ default ∅ (m !! (T, kd.1))]> m.

Definition upsert_all (T : Table) (kds : list (Key * Entity))
    (m : gmap (Table * Key) Entity) : gmap (Table * Key) Entity :=
  foldl (upsert T) m kds.

Definition delete_all (T : Table) (ks : list Key)
    (m : gmap (Table * Key) Entity) : gmap (Table * Key) Entity :=
  foldr (λ k m, delete (T, k) m) m ks.

(** Modelled from the spec: the deferred deletion closure, which deletes
    exactly the rows under the keys computed as delete candidates. *)
Definition delete_rows (T : Table) (stale : list Key) : M World unit :=
  λ w, ({| rows := delete_all T stale (rows w);
           edges := edges w; desired := desired w |}, Ok tt).

(** Modelled from the spec (4.3, step 2): the keys of table [T] that are
    persisted and not desired. *)
Definition stale_keys (T : Table) (ks : list Key)
    (m : gmap (Table * Key) Entity) : list Key :=
  filter (λ k, k ∉ ks) (table_keys T m).

(** Modelled from the spec (4.3): sync_entity(desired_list, table).
    1. every desired entity is resolved, a dangling reference failing the
       call before anything is written;
    2. the resolved keys are compared with the persisted ones;
    3. inserts and updates are applied at once;
    4. the rows persisted and not desired are left to the returned
       closure. *)
Definition sync_entity (D : list Entity) (T : Table) : M World (M World unit) :=
  λ w,
  match map_result (resolve T w) D with
  | Raise e => (w, Raise e)
  | Ok ks =>
      ({| rows := upsert_all T (zip ks D) (rows w);
          edges := edges w;
          desired := <[T := list_to_set ks]> (desired w) |},
       Ok (delete_rows T (stale_keys T ks (rows w))))
  end.

(** Modelled from the spec (4.3, sync_nnr step 2): the edges of the
    relation between [A] and [B] after reconciliation:
    those outside the scope of this run (another relation, or a row of [A]
    this run did not sync) stay, the others are replaced by the desired
    ones. *)
Definition sync_edges (A B : Table) (es : list (Key * Key))
    (scope : gset Key) (E : gset (Table * Table * (Key * Key)))
    : gset (Table * Table * (Key * Key)) :=
  filter (λ x, ¬ (x.1 = (A, B) ∧ x.2.1 ∈ scope)) E
  ∪ list_to_set ((λ e, (A, B, e)) <$> es).

(** Modelled from the spec (4.3): sync_nnr(pairs, table_a, table_b).
    1. both ends of every pair are resolved against the rows of their
       tables, a dangling reference failing the call;
    2. missing edges are inserted and extra edges removed at once, among
       the edges of rows of [A] in this run's desired set. *)
Definition sync_nnr (pairs : list (Entity * Entity)) (A B : Table)
    : M World unit :=
  λ w,
  match map_result (λ p : Entity * Entity,
          ka ← resolve_row A w p.1; kb ← resolve_row B w p.2; Ok (ka, kb))
          pairs with
  | Raise e => (w, Raise e)
  | Ok es =>
      ({| rows := rows w;
          edges := sync_edges A B es (default ∅ (desired w !! A)) (edges w);
          desired := desired w |}, Ok tt)
  end.

(** Modelled from the spec: a loader starts a run with nothing resolved. *)
Definition get_default_loader : M World unit :=
  λ w, ({| rows := rows w; edges := edges w; desired := ∅ |}, Ok tt).

#[local] Instance loader : Loader World := {
  get_default_loader := get_default_loader;
  sync_entity := sync_entity;
  sync_nnr := sync_nnr
}.

End engine.

End Engine.

(** ** A loader that records its calls *)

(** The calls from_unicode makes on its loader. *)
Inductive Event :=
  | EvSyncEntity (T : Table)
  | EvSyncNnr (A B : Table)
  | EvDelete (T : Table).

#[global] Instance Event_eq_dec : EqDecision Event.
Proof. solve_decision. Defined.

Module Traced.

Section traced.
Context {W : Type} {inner : Loader W}.

Definition record {A} (ev : Event) (m : M W A) : M (W * list Event) A :=
  λ wl, let '(w', r) := m wl.1 in ((w', wl.2 ++ [ev]), r).

(** Any loader, with a log: each call of sync_entity and sync_nnr is
    appended to the log when it is made, and each call of a deletion
    closure when the closure runs. *)
#[local] Instance loader : Loader (W * list Event) := {
  get_default_loader := λ wl, let '(w', r) := get_default_loader wl.1 in ((w', wl.2), r);
  sync_entity D T := λ wl,
    let '(w', r) := sync_entity D T wl.1 in
    ((w', wl.2 ++ [EvSyncEntity T]), record (EvDelete T) <$> r);
  sync_nnr pairs A B := record (EvSyncNnr A B) (sync_nnr pairs A B)
}.

End traced.

End Traced.

(** ** Sample collaborators

    A concrete instance of everything scm.py imports, to run the import on
    sample texts.  The theory of Part II holds for every instance. *)

Module Sample.

Fixpoint split_lines_go (cur : string) (s : string) : list string :=
  match s with
  | "" => [String.rev cur]
  | String c s' =>
      if decide (c = "010"%char) then String.rev cur :: split_lines_go "" s'
      else split_lines_go (String c cur) s'
  end.

(** [text.splitlines()] for lines ended by a line feed. *)
Definition split_lines (s : string) : list string := split_lines_go "" s.

(** A line [<code>:<whitespace><value>]: the code and the value. *)
Definition field_line (line : string) : option (string * string) :=
  match line with
  | "" => None
  | String c _ =>
      if is_space c then None
      else match split1 ":" line with
           | (code, Some rest) =>
               if bool_decide (code ≠ "") && negb (contains " " code)
               then Some (code, strip rest) else None
           | (_, None) => None
           end
  end.

(** The parser's state: the blocks finished, the block being read, and the
    long name of the field a continuation line would extend. *)
Record parser_state := {
  finished : list Block;
  current : option Block;
  last_field : string
}.

Definition extend_last (sep v : string) (l : list string) : list string :=
  match reverse l with
  | [] => [v]
  | x :: r => reverse r ++ [x +:+ sep +:+ v]
  end.

Definition parse_line (marker : string) (mapping : gmap string string)
    (st : parser_state) (line : string) : result parser_state :=
  if bool_decide (strip line = "") then Ok st
  else match field_line line with
  | Some (code, value) =>
      match mapping !! code with
      | None => Raise (OtherError "unrecognized field code")
      | Some name =>
          if bool_decide (code = marker)
          then Ok {| finished := finished st ++ option_list (current st);
                     current := Some {| marker_value := value; fields := ∅ |};
                     last_field := name |}
          else match current st with
               | None => Raise (OtherError "malformed line")
               | Some b =>
                   Ok {| finished := finished st;
                         current := Some
                           {| marker_value := marker_value b;
                              fields := <[name := default [] (fields b !! name) ++ [value]]>
                                          (fields b) |};
                         last_field := name |}
               end
      end
  | None =>
      match current st with
      | None => Raise (OtherError "malformed line")
      | Some b =>
          Ok {| finished := finished st;
                current := Some
                  (if bool_decide (is_Some (fields b !! last_field st))
                   then {| marker_value := marker_value b;
                           fields := <[last_field st :=
                                        extend_last " " (strip line)
                                          (default [] (fields b !! last_field st))]>
                                       (fields b) |}
                   else {| marker_value := marker_value b +:+ " " +:+ strip line;
                           fields := fields b |});
                last_field := last_field st |}
      end
  end.

(** Modelled from the spec: a block parser in the manner of 4.1 (field
    lines, continuation lines joined by a space, blank lines skipped, a new
    block at each marker line, an unmapped code an error).  Every field
    other than the marker accumulates its values in order. *)
Definition block_parser (text marker : string) (mapping : list (string * string))
    : result (list Block) :=
  st ← for_each (parse_line marker (list_to_map mapping))
         {| finished := []; current := None; last_field := "" |}
         (split_lines text);
  Ok (finished st ++ option_list (current st)).

(** Decoding of ASCII text, under the names of the codecs that agree on it;
    a byte above 127 is refused. *)
Definition ascii_decode (bytes : list Byte.byte) (coding : string)
    : result string :=
  if bool_decide (coding ∈ ["utf8"; "utf-8"; "ascii"])
  then map_result (λ b, if bool_decide (Byte.to_nat b < 128)
                        then Ok (ascii_of_byte b)
                        else Raise UnicodeDecodeError) bytes
       ≫= λ cs, Ok (string_of_list_ascii cs)
  else Raise LookupError.

(** The sample collaborators.  A set is iterated in the order of
    [elements], one of the orders Python may follow. *)
Definition imports : Imports := {|
  role_choices := [ ("ARCHITECT", "Architect"); ("INTEGRATOR", "Integrator");
                    ("MAINTAINER", "Maintainer"); ("REVIEWER", "Reviewer");
                    ("SUBDOMAIN_LEADER", "Subdomain leader") ];
  party_choices := [ ("INTEL", "Intel"); ("SAMSUNG", "Samsung");
                     ("TIZEN", "Tizen") ];
  parse_blocks := block_parser;
  decode := ascii_decode;
  iter_set := elements;
  iter_set_elements s := reflexivity (elements s)
|}.

Definition schema : Engine.Schema := {|
  Engine.key_fields T :=
    match T with
    | User => ["email"]
    | Domain => ["name"]
    | SubDomain => ["name"; "domain__name"]
    | GitTree => ["gitpath"]
    | License => ["shortname"]
    | DomainRole => ["role"; "domain__name"]
    | SubDomainRole => ["role"; "subdomain__name"; "subdomain__domain__name"]
    | GitTreeRole => ["role"; "gittree__gitpath"]
    | UserParty => ["party"]
    end;
  Engine.parents T :=
    match T with
    | SubDomain => [("domain", Domain)]
    | GitTree => [("subdomain", SubDomain)]
    | DomainRole => [("domain", Domain)]
    | SubDomainRole => [("subdomain", SubDomain)]
    | GitTreeRole => [("gittree", GitTree)]
    | _ => []
    end
|}.

Definition nl : string := String "010"%char "".

Definition domain_text : string :=
  "D: System" +:+ nl +:+
  "M: Alice <alice@intel.com>" +:+ nl +:+
  "R: Bob <bob@samsung.com>" +:+ nl +:+
  "R: not an identity" +:+ nl +:+
  nl +:+
  "D: System / Kernel" +:+ nl +:+
  "N: System" +:+ nl +:+
  "R: alice <ALICE@Intel.com>" +:+ nl.

Definition tree_text : string :=
  "T: platform/kernel/linux" +:+ nl +:+
  "D: System / Kernel" +:+ nl +:+
  "L: GPL-2.0" +:+ nl +:+
  "M: Carol <carol@tizen.org>" +:+ nl.

(** A store with rows of an earlier import: a domain and a user the sample
    texts no longer mention, and the license they refer to. *)
Definition world : Engine.World := {|
  Engine.rows :=
    {[ (Domain, ["Legacy"]) := {[ "name" := "Legacy" ]};
       (User, ["ghost@tizen.org"]) :=
         {[ "username" := "ghost@tizen.org"; "email" := "ghost@tizen.org" ]};
       (License, ["GPL-2.0"]) := {[ "shortname" := "GPL-2.0" ]} ]};
  Engine.edges := ∅;
  Engine.desired := ∅
|}.

End Sample.

(** * Part II: theory *)

(** ** Outcomes and loops *)

Lemma bind_Ok {A B} (f : A → result B) (r : result A) (b : B) :
  r ≫= f = Ok b → ∃ a, r = Ok a ∧ f a = Ok b.
Proof. destruct r as [a|e]; [eauto | discriminate]. Qed.

Lemma for_each_app {A S} (body : S → A → result S) s l1 l2 :
  for_each body s (l1 ++ l2) = for_each body s l1 ≫= λ s', for_each body s' l2.
Proof.
  revert s. induction l1 as [|x l1 IH]; intros s; simpl; [done|].
  destruct (body s x) as [s'|e]; simpl; [apply IH | done].
Qed.

(** A loop whose body never raises is a fold. *)
Lemma for_each_total {A S} (body : S → A → result S) (f : S → A → S) s l :
  (∀ s x, x ∈ l → body s x = Ok (f s x)) → for_each body s l = Ok (foldl f s l).
Proof.
  revert s. induction l as [|x l IH]; intros s Hb; simpl; [done|].
  rewrite Hb by left. simpl. apply IH. intros; apply Hb; by right.
Qed.

Lemma map_result_Ok {A B} (f : A → result B) (g : A → B) l :
  (∀ x, x ∈ l → f x = Ok (g x)) → map_result f l = Ok (g <$> l).
Proof.
  induction l as [|x l IH]; intros Hf; simpl; [done|].
  rewrite Hf by left. simpl. rewrite IH; [done|]. intros; apply Hf; by right.
Qed.

Lemma map_result_length {A B} (f : A → result B) l ys :
  map_result f l = Ok ys → length ys = length l.
Proof.
  revert ys. induction l as [|x l IH]; intros ys; simpl.
  - by intros [= <-].
  - destruct (f x) as [y|]; simpl; [|done].
    destruct (map_result f l) as [ys'|]; simpl; [|done].
    intros [= <-]. simpl. f_equal. by apply IH.
Qed.

(** ** Strings *)

Lemma startswith_app p s : startswith p (p +:+ s) = true.
Proof. induction p as [|a p IH]; simpl; [done|]. by rewrite decide_True. Qed.

Lemma startswith_inv p s :
  startswith p s = true → ∃ s', s = p +:+ s'.
Proof.
  revert s. induction p as [|a p IH]; intros s; simpl.
  - eauto.
  - destruct s as [|b s]; [done|]. case_decide; [|done]. subst b.
    intros [s' ->]%IH. by exists s'.
Qed.

(** No text ends both with "intel.com" and with "samsung.com": the tests of
    transform_parties exclude each other. *)
Lemma endswith_intel_samsung s :
  endswith "intel.com" s = true → endswith "samsung.com" s = true → False.
Proof.
  unfold endswith. intros [r1 H1]%startswith_inv [r2 H2]%startswith_inv.
  rewrite H1 in H2. vm_compute in H2. discriminate.
Qed.

Lemma partition_at_None_cons sep c s :
  partition_at sep (String c s) = None → partition_at sep s = None.
Proof.
  simpl. destruct (startswith sep (String c s)); [done|].
  by destruct (partition_at sep s) as [[]|].
Qed.

Lemma drop_chars_app p s : drop_chars (String.length p) (p +:+ s) = s.
Proof. induction p as [|a p IH]; simpl; [by destruct s | done]. Qed.

(** [partition_at] splits at an occurrence of the separator. *)
Lemma partition_at_Some sep s a b :
  partition_at sep s = Some (a, b) → s = a +:+ sep +:+ b.
Proof.
  revert a b. induction s as [|c s IH]; intros a b.
  - destruct sep as [|x sep]; simpl; [|done]. by intros [= <- <-].
  - cbn [partition_at]. destruct (startswith sep (String c s)) eqn:E.
    + intros [= <- <-]. apply startswith_inv in E as [s' E]. rewrite E.
      by rewrite drop_chars_app.
    + destruct (partition_at sep s) as [[a' b']|]; [|done].
      intros [= <- <-]. change (String c s = String c (a' +:+ sep +:+ b')).
      f_equal. by apply IH.
Qed.

Lemma contains_split1 sep s :
  contains sep s = true → ∃ a b, split1 sep s = (a, Some b).
Proof.
  unfold contains, split1. intros [[a b] E]%bool_decide_eq_true.
  rewrite E. eauto.
Qed.

Lemma not_contains_split1 sep s :
  contains sep s = false → split1 sep s = (s, None).
Proof.
  unfold contains, split1. intros E%bool_decide_eq_false.
  destruct (partition_at sep s) as [[a b]|]; [|done].
  destruct E. eauto.
Qed.

Lemma getitem_Some (d : Entity) key v : d !! key = Some v → getitem d key = Ok v.
Proof. unfold getitem. by intros ->. Qed.

Lemma foldl_snoc {A B} (g : A → B) (acc : list B) (l : list A) :
  foldl (λ acc x, acc ++ [g x]) acc l = acc ++ (g <$> l).
Proof.
  revert acc. induction l as [|x l IH]; intros acc; simpl.
  - by rewrite app_nil_r.
  - rewrite IH. by rewrite <- app_assoc.
Qed.

(** ** transform_parties *)

Section parties.
Context {imports : Imports}.

(** The user record has an email with an "@" in it. *)
Definition email_has_at (user : Entity) : Prop :=
  ∃ email, user !! "email" = Some email ∧ contains "@" email = true.

(** The party rule in the words of the specification: suffix matching on
    the lowercased domain part, with a default bucket. *)
Definition party_rule (suffix party : string) : Prop :=
  (endswith "intel.com" suffix = true → party = "INTEL") ∧
  (endswith "samsung.com" suffix = true → party = "SAMSUNG") ∧
  (endswith "intel.com" suffix = false →
     endswith "samsung.com" suffix = false → party = "TIZEN").

(** What transform_parties pairs with one user. *)
Definition assigned (user : Entity) (pu : Entity * Entity) : Prop :=
  pu.2 = user ∧
  ∃ email local domain_part party,
    user !! "email" = Some email ∧
    split1 "@" email = (local, Some domain_part) ∧
    pu.1 = {[ "party" := party ]} ∧
    party_rule (lower domain_part) party.

Definition party_pair (user : Entity) : Entity * Entity :=
  match getitem user "email" ≫= party_of with
  | Ok party => ({[ "party" := party ]}, user)
  | Raise _ => (∅, user)
  end.

Lemma party_of_rule email local domain_part :
  split1 "@" email = (local, Some domain_part) →
  ∃ party, party_of email = Ok party ∧ party_rule (lower domain_part) party.
Proof.
  intros E. unfold party_of. rewrite E. simpl.
  destruct (endswith "intel.com" (lower domain_part)) eqn:Ei;
    [|destruct (endswith "samsung.com" (lower domain_part)) eqn:Es].
  - eexists; split; [done|]. unfold party_rule.
    split_and!; [done | | intros; congruence].
    intros Es. destruct (endswith_intel_samsung _ Ei Es).
  - eexists; split; [done|]. unfold party_rule. split_and!; intros; congruence.
  - eexists; split; [done|]. unfold party_rule. split_and!; intros; congruence.
Qed.

Lemma party_pair_assigned user : email_has_at user → assigned user (party_pair user).
Proof.
  intros (email & He & [local [d Hs]]%contains_split1).
  destruct (party_of_rule _ _ _ Hs) as (party & Hp & Hr).
  unfold party_pair, getitem. rewrite He. simpl. rewrite Hp.
  split; [done|]. by exists email, local, d, party.
Qed.

Lemma party_users_loop users acc :
  Forall email_has_at users →
  for_each (λ party_users user,
    email ← getitem user "email";
    party ← party_of email;
    Ok (party_users ++ [(({[ "party" := party ]} : Entity), user)])) acc users
  = Ok (acc ++ (party_pair <$> users)).
Proof.
  intros Hu. rewrite <- foldl_snoc. apply for_each_total.
  intros acc' user Hin. rewrite Forall_forall in Hu.
  destruct (Hu _ Hin) as (email & He & [local [d Hs]]%contains_split1).
  destruct (party_of_rule _ _ _ Hs) as (party & Hp & _).
  unfold party_pair, getitem. rewrite He. simpl. by rewrite Hp.
Qed.

(** C7: transform_parties pairs every user, once and in order, with the
    party that the suffix rule gives for the lowercased domain part of the
    user's email: INTEL for a suffix "intel.com", SAMSUNG for a suffix
    "samsung.com", TIZEN otherwise. *)
Theorem transform_parties_suffix_rule (users : list Entity) :
  Forall email_has_at users →
  ∃ party_users,
    transform_parties users
    = Ok ((λ i, {[ "party" := i.1; "name" := i.2 ]}) <$> party_choices,
          party_users) ∧
    Forall2 assigned users party_users.
Proof.
  intros Hu. exists (party_pair <$> users). split.
  - unfold transform_parties. by rewrite party_users_loop.
  - apply Forall2_fmap_r, Forall_Forall2_diag.
    eapply Forall_impl; [exact Hu|]. apply party_pair_assigned.
Qed.

Lemma party_users_loop_fails users acc :
  Forall (λ user : Entity, is_Some (user !! "email")) users →
  Exists (λ user : Entity, ∃ email, user !! "email" = Some email ∧
                               contains "@" email = false) users →
  for_each (λ party_users user,
    email ← getitem user "email";
    party ← party_of email;
    Ok (party_users ++ [(({[ "party" := party ]} : Entity), user)])) acc users
  = Raise IndexError.
Proof.
  intros Hall. revert acc. induction Hall as [|user users [email He] _ IH];
    intros acc Hex.
  - inversion Hex.
  - simpl. rewrite (getitem_Some _ _ _ He). simpl.
    destruct (contains "@" email) eqn:Hc.
    + apply contains_split1 in Hc as (local & d & Hs).
      destruct (party_of_rule _ _ _ Hs) as (party & -> & _). simpl.
      apply IH. apply Exists_cons in Hex as [(e' & He' & Hc')|]; [|done].
      rewrite He in He'. injection He' as <-.
      unfold contains in Hc'. unfold split1 in Hs.
      apply bool_decide_eq_false in Hc'. destruct Hc'.
      destruct (partition_at "@" email) as [[]|]; [eauto | done].
    + unfold party_of. by rewrite (not_contains_split1 _ _ Hc).
Qed.

(** C10: transform_parties returns for every list of users whose emails all
    contain "@"; and a user whose email has no "@" makes it fail with
    IndexError, the subscript [1] being out of range on the list that
    [split('@', 1)] returns. *)
Theorem transform_parties_needs_at :
  (∀ users : list Entity, Forall email_has_at users →
     ∃ r, transform_parties users = Ok r) ∧
  (∀ (users : list Entity) user email,
     Forall (λ user : Entity, is_Some (user !! "email")) users →
     user ∈ users → user !! "email" = Some email →
     contains "@" email = false →
     transform_parties users = Raise IndexError) ∧
  transform_parties [ {[ "email" := "nobody" ]} ] = Raise IndexError.
Proof.
  split; [|split].
  - intros users Hu. unfold transform_parties.
    rewrite party_users_loop by done. eauto.
  - intros users user email Hall Hin He Hc. unfold transform_parties.
    rewrite party_users_loop_fails; [done..|].
    apply Exists_exists. exists user. eauto.
  - reflexivity.
Qed.

End parties.

(** The suffix rule on sample users. *)
Lemma transform_parties_suffix_rule_sample :
  Forall email_has_at
    [ ({[ "email" := "Alice@Mail.INTEL.com" ]} : Entity);
      {[ "email" := "bob@samsung.com" ]}; {[ "email" := "carol@tizen.org" ]} ] ∧
  ∃ party_users,
    transform_parties (imports := Sample.imports)
      [ {[ "email" := "Alice@Mail.INTEL.com" ]};
        {[ "email" := "bob@samsung.com" ]}; {[ "email" := "carol@tizen.org" ]} ]
    = Ok ((λ i, {[ "party" := i.1; "name" := i.2 ]})
            <$> party_choices (Imports := Sample.imports), party_users) ∧
    Forall2 assigned
      [ {[ "email" := "Alice@Mail.INTEL.com" ]};
        {[ "email" := "bob@samsung.com" ]}; {[ "email" := "carol@tizen.org" ]} ]
      party_users.
Proof.
  assert (Hu : Forall email_has_at
                 [ ({[ "email" := "Alice@Mail.INTEL.com" ]} : Entity);
                   {[ "email" := "bob@samsung.com" ]};
                   {[ "email" := "carol@tizen.org" ]} ]).
  { repeat constructor; eexists; (split; [reflexivity | vm_compute; reflexivity]). }
  split; [exact Hu|].
  exact (transform_parties_suffix_rule (imports := Sample.imports) _ Hu).
Defined.

(** ** transform_domains and transform_trees as list comprehensions *)

Section transforms.
Context {imports : Imports} {UC : Type} {cache : UserCacheOps UC}.

(** The rows and keys the transforms build. *)
Definition domain_row (name : string) : Entity := {[ "name" := name ]}.
Definition subdomain_row (dname sname : string) : Entity :=
  {[ "name" := sname; "domain__name" := dname ]}.
Definition domainrole_key (name role : string) : Entity :=
  {[ "role" := role; "domain__name" := name ]}.
Definition domainrole_row (name role : string) : Entity :=
  <["name" := rolename role name]> (domainrole_key name role).
Definition subdomainrole_key (dname sname role : string) : Entity :=
  {[ "role" := role; "subdomain__name" := sname;
     "subdomain__domain__name" := dname ]}.
Definition subdomainrole_row (dname sname role : string) : Entity :=
  <["name" := subrolename role dname sname]> (subdomainrole_key dname sname role).
Definition treerole_key (path role : string) : Entity :=
  {[ "role" := role; "gittree__gitpath" := path ]}.
Definition treerole_row (path role : string) : Entity :=
  <["name" := rolename role path]> (treerole_key path role).

(** The pairs one role field gives: one for each value the cache knows,
    in order; a value for which [get] returns the absence marker gives
    none. *)
Definition role_pairs (uc : UC) (key : Entity) (ustrings : list string)
    : list (Entity * Entity) :=
  omap (λ ustring,
    match UserCache_get uc ustring with
    | Some user => if truthy user then Some (key, user) else None
    | None => None
    end) ustrings.

(** Appending the lists of two results. *)
Definition domain_tables_app (t u : DomainTables) : DomainTables :=
  {| domains := domains t ++ domains u;
     subdomains := subdomains t ++ subdomains u;
     domainroles := domainroles t ++ domainroles u;
     subdomainroles := subdomainroles t ++ subdomainroles u;
     domainrole_users := domainrole_users t ++ domainrole_users u;
     subdomainrole_users := subdomainrole_users t ++ subdomainrole_users u |}.

Definition tree_tables_app (t u : TreeTables) : TreeTables :=
  {| trees := trees t ++ trees u;
     tree_licenses := tree_licenses t ++ tree_licenses u;
     treeroles := treeroles t ++ treeroles u;
     treerole_users := treerole_users t ++ treerole_users u |}.

(** What one block of the domain text adds to the six lists. *)
Definition domain_block_rows (uc : UC) (data : Block) : DomainTables :=
  let roles := role_keys "DOMAIN" data in
  if has_key "DOMAIN" data "PARENT" then
    let '(dname, sname) := parse_name (marker_value data) in
    {| domains := []; subdomains := [subdomain_row dname sname];
       domainroles := [];
       subdomainroles := subdomainrole_row dname sname <$> roles;
       domainrole_users := [];
       subdomainrole_users :=
         roles ≫= λ role, role_pairs uc (subdomainrole_key dname sname role)
                             (iter_item "DOMAIN" data role) |}
  else
    let name := marker_value data in
    {| domains := [domain_row name]; subdomains := [];
       domainroles := domainrole_row name <$> roles;
       subdomainroles := [];
       domainrole_users :=
         roles ≫= λ role, role_pairs uc (domainrole_key name role)
                             (iter_item "DOMAIN" data role);
       subdomainrole_users := [] |}.

Lemma domain_tables_app_assoc t u v :
  domain_tables_app (domain_tables_app t u) v
  = domain_tables_app t (domain_tables_app u v).
Proof. unfold domain_tables_app. simpl. by rewrite !app_assoc. Qed.

Lemma domain_tables_app_nil t :
  domain_tables_app t {| domains := []; subdomains := []; domainroles := [];
                         subdomainroles := []; domainrole_users := [];
                         subdomainrole_users := [] |} = t.
Proof. destruct t. unfold domain_tables_app. simpl. by rewrite !app_nil_r. Qed.

Lemma subdomainrole_users_loop uc key l t :
  foldl (λ t ustring,
    match UserCache_get uc ustring with
    | Some user =>
        if truthy user then subdomainrole_users_append (key, user) t else t
    | None => t
    end) t l
  = domain_tables_app t
      {| domains := []; subdomains := []; domainroles := [];
         subdomainroles := []; domainrole_users := [];
         subdomainrole_users := role_pairs uc key l |}.
Proof.
  revert t. induction l as [|x l IH]; intros t; simpl.
  - by rewrite domain_tables_app_nil.
  - rewrite IH. unfold role_pairs. simpl.
    destruct (UserCache_get uc x) as [user|]; [destruct (truthy user)|]; try done.
    unfold subdomainrole_users_append, domain_tables_app. simpl.
    by rewrite !app_nil_r, <- app_assoc.
Qed.

Lemma domainrole_users_loop uc key l t :
  foldl (λ t ustring,
    match UserCache_get uc ustring with
    | Some user =>
        if truthy user then domainrole_users_append (key, user) t else t
    | None => t
    end) t l
  = domain_tables_app t
      {| domains := []; subdomains := []; domainroles := [];
         subdomainroles := []; domainrole_users := role_pairs uc key l;
         subdomainrole_users := [] |}.
Proof.
  revert t. induction l as [|x l IH]; intros t; simpl.
  - by rewrite domain_tables_app_nil.
  - rewrite IH. unfold role_pairs. simpl.
    destruct (UserCache_get uc x) as [user|]; [destruct (truthy user)|]; try done.
    unfold domainrole_users_append, domain_tables_app. simpl.
    by rewrite !app_nil_r, <- app_assoc.
Qed.

Lemma trans_subdomain_roles uc data dname sname roles t :
  foldl (λ t role,
    let sr : Entity := {[ "role" := role;
                          "subdomain__name" := sname;
                          "subdomain__domain__name" := dname ]} in
    let t := subdomainroles_append
               (<["name" := subrolename role dname sname]> sr) t in
    foldl (λ t ustring,
      match UserCache_get uc ustring with
      | Some user =>
          if truthy user then subdomainrole_users_append (sr, user) t else t
      | None => t
      end) t (iter_item "DOMAIN" data role)) t roles
  = domain_tables_app t
      {| domains := []; subdomains := []; domainroles := [];
         subdomainroles := subdomainrole_row dname sname <$> roles;
         domainrole_users := [];
         subdomainrole_users :=
           roles ≫= λ role, role_pairs uc (subdomainrole_key dname sname role)
                               (iter_item "DOMAIN" data role) |}.
Proof.
  revert t. induction roles as [|role roles IH]; intros t; simpl.
  - by rewrite domain_tables_app_nil.
  - rewrite IH, subdomainrole_users_loop, domain_tables_app_assoc.
    unfold subdomainroles_append, domain_tables_app. simpl.
    by rewrite !app_nil_r, <- !app_assoc.
Qed.

Lemma trans_domain_roles uc data name roles t :
  foldl (λ t role,
    let dr : Entity := {[ "role" := role; "domain__name" := name ]} in
    let t := domainroles_append (<["name" := rolename role name]> dr) t in
    foldl (λ t ustring,
      match UserCache_get uc ustring with
      | Some user =>
          if truthy user then domainrole_users_append (dr, user) t else t
      | None => t
      end) t (iter_item "DOMAIN" data role)) t roles
  = domain_tables_app t
      {| domains := []; subdomains := [];
         domainroles := domainrole_row name <$> roles;
         subdomainroles := [];
         domainrole_users :=
           roles ≫= λ role, role_pairs uc (domainrole_key name role)
                               (iter_item "DOMAIN" data role);
         subdomainrole_users := [] |}.
Proof.
  revert t. induction roles as [|role roles IH]; intros t; simpl.
  - by rewrite domain_tables_app_nil.
  - rewrite IH, domainrole_users_loop, domain_tables_app_assoc.
    unfold domainroles_append, domain_tables_app. simpl.
    by rewrite !app_nil_r, <- !app_assoc.
Qed.

(** Each block of the domain text appends its rows. *)
Lemma trans_block uc data t :
  (if has_key "DOMAIN" data "PARENT"
   then _trans_subdomain uc data t else _trans_domain uc data t)
  = domain_tables_app t (domain_block_rows uc data).
Proof.
  unfold domain_block_rows, _trans_subdomain, _trans_domain.
  destruct (has_key "DOMAIN" data "PARENT").
  - destruct (parse_name (marker_value data)) as [dname sname].
    rewrite trans_subdomain_roles. unfold subdomains_append, domain_tables_app.
    simpl. by rewrite !app_nil_r.
  - rewrite trans_domain_roles. unfold domains_append, domain_tables_app.
    simpl. by rewrite !app_nil_r.
Qed.

(** The rows of all blocks, in order. *)
Definition domain_rows (uc : UC) (domains_data : list Block) : DomainTables :=
  {| domains := domains_data ≫= λ data, domains (domain_block_rows uc data);
     subdomains := domains_data ≫= λ data, subdomains (domain_block_rows uc data);
     domainroles := domains_data ≫= λ data, domainroles (domain_block_rows uc data);
     subdomainroles :=
       domains_data ≫= λ data, subdomainroles (domain_block_rows uc data);
     domainrole_users :=
       domains_data ≫= λ data, domainrole_users (domain_block_rows uc data);
     subdomainrole_users :=
       domains_data ≫= λ data, subdomainrole_users (domain_block_rows uc data) |}.

Lemma trans_blocks uc domains_data t :
  foldl (λ t data,
    if has_key "DOMAIN" data "PARENT"
    then _trans_subdomain uc data t
    else _trans_domain uc data t) t domains_data
  = domain_tables_app t (domain_rows uc domains_data).
Proof.
  revert t. induction domains_data as [|data ds IH]; intros t; simpl.
  - by rewrite domain_tables_app_nil.
  - rewrite IH, trans_block, domain_tables_app_assoc. done.
Qed.

(** Every entry of [domains] has a name. *)
Lemma domain_rows_named uc domains_data d :
  d ∈ domains (domain_rows uc domains_data) →
  ∃ data, data ∈ domains_data ∧ has_key "DOMAIN" data "PARENT" = false ∧
          d = domain_row (marker_value data).
Proof.
  simpl. intros (data & Hd & Hin)%list_elem_of_bind. exists data.
  unfold domain_block_rows in Hd.
  destruct (has_key "DOMAIN" data "PARENT").
  - destruct (parse_name (marker_value data)). simpl in Hd. by apply elem_of_nil in Hd.
  - simpl in Hd. apply list_elem_of_singleton in Hd. done.
Qed.

(** The name under which a row of [domains] is registered. *)
Definition name_of (d : Entity) : string := default "" (d !! "name").

(** transform_domains returns, for every input: the rows of the blocks,
    after the Uncategorized domain, and one Uncategorized subdomain for
    each domain. *)
Lemma transform_domains_rows (domains_data : list Block) (uc : UC) :
  let rows := domain_rows uc domains_data in
  let all_domains := domain_row NONAME :: domains rows in
  transform_domains domains_data uc
  = Ok {| domains := all_domains;
          subdomains := subdomains rows
                        ++ ((λ d, subdomain_row (name_of d) NONAME) <$> all_domains);
          domainroles := domainroles rows;
          subdomainroles := subdomainroles rows;
          domainrole_users := domainrole_users rows;
          subdomainrole_users := subdomainrole_users rows |}.
Proof.
  intros rows all_domains. unfold transform_domains.
  rewrite trans_blocks. fold rows.
  set (t := domain_tables_app _ rows).
  rewrite (for_each_total _
    (λ t d, subdomains_append (subdomain_row (name_of d) NONAME) t)).
  - f_equal.
    assert (Hfold : ∀ l t,
      foldl (λ t d, subdomains_append (subdomain_row (name_of d) NONAME) t) t l
      = domain_tables_app t
          {| domains := [];
             subdomains := (λ d, subdomain_row (name_of d) NONAME) <$> l;
             domainroles := []; subdomainroles := [];
             domainrole_users := []; subdomainrole_users := [] |}).
    { clear. induction l as [|d l IH]; intros t; simpl.
      - by rewrite domain_tables_app_nil.
      - rewrite IH. unfold subdomains_append, domain_tables_app. simpl.
        by rewrite !app_nil_r, <- app_assoc. }
    rewrite Hfold. unfold t, domain_tables_app. simpl.
    by rewrite !app_nil_r.
  - intros t' d Hd. unfold t in Hd. simpl in Hd.
    assert (Hname : ∃ name, d = domain_row name).
    { apply elem_of_cons in Hd as [->|Hd]; [by exists NONAME|].
      apply domain_rows_named in Hd as (data & _ & _ & ->). eauto. }
    destruct Hname as [name ->]. done.
Qed.

(** *** transform_trees *)

Lemma partition_at_unfold sep s :
  partition_at sep s
  = if startswith sep s then Some ("", drop_chars (String.length sep) s)
    else match s with
         | "" => None
         | String c s' =>
             match partition_at sep s' with
             | Some (a, b) => Some (String c a, b)
             | None => None
             end
         end.
Proof. by destruct s. Qed.

Lemma partition_at_app sep a b : is_Some (partition_at sep (a +:+ sep +:+ b)).
Proof.
  induction a as [|c a IH]; rewrite partition_at_unfold.
  - change ("" +:+ sep +:+ b) with (sep +:+ b).
    by rewrite startswith_app.
  - change (String c a +:+ sep +:+ b) with (String c (a +:+ sep +:+ b)).
    destruct (startswith sep _); [done|].
    destruct IH as [[a' b'] ->]. done.
Qed.

(** The domain and subdomain names transform_trees reads from a block. *)
Definition tree_subdomain (data : Block) : string * string :=
  let no_domain := join_slash NONAME NONAME in
  let name := match fields data !! "DOMAIN" with
              | Some (name :: _) => if bool_decide (name ≠ "") then name else no_domain
              | _ => no_domain
              end in
  let name := if negb (contains " / " name) then join_slash name NONAME
              else name in
  (fst (split1 " / " name), default "" (snd (split1 " / " name))).

Definition tree_row (path dname sname : string) : Entity :=
  {[ "gitpath" := path; "subdomain__name" := sname;
     "subdomain__domain__name" := dname ]}.

Definition license_pair (path licen : string) : Entity * Entity :=
  ({[ "gitpath" := path ]}, {[ "shortname" := licen ]}).

(** What one block of the tree text adds to the four lists. *)
Definition tree_block_rows (uc : UC) (data : Block) : TreeTables :=
  let path := marker_value data in
  let roles := role_keys "TREE PATH" data in
  {| trees := [tree_row path (tree_subdomain data).1 (tree_subdomain data).2];
     tree_licenses := license_pair path <$> default [] (fields data !! "LICENSES");
     treeroles := treerole_row path <$> roles;
     treerole_users :=
       roles ≫= λ role, role_pairs uc (treerole_key path role)
                           (iter_item "TREE PATH" data role) |}.

Lemma tree_tables_app_assoc t u v :
  tree_tables_app (tree_tables_app t u) v = tree_tables_app t (tree_tables_app u v).
Proof. unfold tree_tables_app. simpl. by rewrite !app_assoc. Qed.

Lemma tree_tables_app_nil t :
  tree_tables_app t {| trees := []; tree_licenses := []; treeroles := [];
                       treerole_users := [] |} = t.
Proof. destruct t. unfold tree_tables_app. simpl. by rewrite !app_nil_r. Qed.

Lemma treerole_users_loop uc key l t :
  foldl (λ t ustring,
    match UserCache_get uc ustring with
    | Some user =>
        if truthy user then treerole_users_append (key, user) t else t
    | None => t
    end) t l
  = tree_tables_app t
      {| trees := []; tree_licenses := []; treeroles := [];
         treerole_users := role_pairs uc key l |}.
Proof.
  revert t. induction l as [|x l IH]; intros t; simpl.
  - by rewrite tree_tables_app_nil.
  - rewrite IH. unfold role_pairs. simpl.
    destruct (UserCache_get uc x) as [user|]; [destruct (truthy user)|]; try done.
    unfold treerole_users_append, tree_tables_app. simpl.
    by rewrite !app_nil_r, <- app_assoc.
Qed.

Lemma tree_roles_loop uc data path roles t :
  foldl (λ t role,
    let tr : Entity := {[ "role" := role; "gittree__gitpath" := path ]} in
    let t := treeroles_append (<["name" := rolename role path]> tr) t in
    foldl (λ t ustring,
      match UserCache_get uc ustring with
      | Some user =>
          if truthy user then treerole_users_append (tr, user) t else t
      | None => t
      end) t (iter_item "TREE PATH" data role)) t roles
  = tree_tables_app t
      {| trees := []; tree_licenses := [];
         treeroles := treerole_row path <$> roles;
         treerole_users :=
           roles ≫= λ role, role_pairs uc (treerole_key path role)
                               (iter_item "TREE PATH" data role) |}.
Proof.
  revert t. induction roles as [|role roles IH]; intros t; simpl.
  - by rewrite tree_tables_app_nil.
  - rewrite IH, treerole_users_loop, tree_tables_app_assoc.
    unfold treeroles_append, tree_tables_app. simpl.
    by rewrite !app_nil_r, <- !app_assoc.
Qed.

Lemma tree_licenses_loop path l t :
  foldl (λ t licen,
    tree_licenses_append ({[ "gitpath" := path ]}, {[ "shortname" := licen ]}) t)
    t l
  = tree_tables_app t
      {| trees := []; tree_licenses := license_pair path <$> l;
         treeroles := []; treerole_users := [] |}.
Proof.
  revert t. induction l as [|x l IH]; intros t; simpl.
  - by rewrite tree_tables_app_nil.
  - rewrite IH. unfold tree_licenses_append, tree_tables_app. simpl.
    by rewrite !app_nil_r, <- app_assoc.
Qed.

(** The block has a DOMAIN entry to read: the key is absent, or its list
    is not empty. *)
Definition domain_readable (data : Block) : Prop :=
  fields data !! "DOMAIN" ≠ Some [].

(** One block of the tree text appends its rows, whatever the cache
    answers. *)
Lemma transform_tree_rows uc t data :
  domain_readable data →
  transform_tree uc t data = Ok (tree_tables_app t (tree_block_rows uc data)).
Proof.
  intros Hd. unfold transform_tree, tree_block_rows, tree_subdomain.
  set (no_domain := join_slash NONAME NONAME).
  assert (Hname : ∃ name,
    match default [no_domain] (fields data !! "DOMAIN") with
    | name :: _ => Ok (if bool_decide (name ≠ "") then name else no_domain)
    | [] => Raise IndexError
    end = Ok name ∧
    match fields data !! "DOMAIN" with
    | Some (name :: _) => if bool_decide (name ≠ "") then name else no_domain
    | _ => no_domain
    end = name).
  { unfold domain_readable in Hd.
    destruct (fields data !! "DOMAIN") as [[|name l]|]; simpl.
    - done.
    - eauto.
    - eexists. split; [reflexivity|]. done. }
  destruct Hname as (name & -> & ->). simpl.
  set (name' := if negb (contains " / " name) then join_slash name NONAME else name).
  assert (Hsplit : ∃ dname sname, split1 " / " name' = (dname, Some sname)).
  { apply contains_split1. unfold name'.
    destruct (contains " / " name) eqn:Hc; simpl; [done|].
    unfold contains. apply bool_decide_eq_true. apply partition_at_app. }
  destruct Hsplit as (dname & sname & ->). simpl.
  rewrite tree_licenses_loop, tree_roles_loop, !tree_tables_app_assoc.
  f_equal. unfold trees_append, tree_tables_app. simpl.
  by rewrite !app_nil_r.
Qed.

Lemma transform_tree_unreadable uc t data :
  fields data !! "DOMAIN" = Some [] → transform_tree uc t data = Raise IndexError.
Proof. intros Hd. unfold transform_tree. by rewrite Hd. Qed.

(** The rows of all blocks of the tree text, in order. *)
Definition tree_rows (uc : UC) (trees_data : list Block) : TreeTables :=
  {| trees := trees_data ≫= λ data, trees (tree_block_rows uc data);
     tree_licenses := trees_data ≫= λ data, tree_licenses (tree_block_rows uc data);
     treeroles := trees_data ≫= λ data, treeroles (tree_block_rows uc data);
     treerole_users :=
       trees_data ≫= λ data, treerole_users (tree_block_rows uc data) |}.

Lemma transform_trees_loop uc t trees_data :
  Forall domain_readable trees_data →
  for_each (transform_tree uc) t trees_data
  = Ok (tree_tables_app t (tree_rows uc trees_data)).
Proof.
  intros Hd. revert t. induction Hd as [|data ds Hdata _ IH]; intros t; simpl.
  - by rewrite tree_tables_app_nil.
  - rewrite transform_tree_rows by done. simpl. rewrite IH.
    by rewrite tree_tables_app_assoc.
Qed.

Lemma transform_trees_rows (trees_data : list Block) (uc : UC) :
  Forall domain_readable trees_data →
  transform_trees trees_data uc = Ok (tree_rows uc trees_data).
Proof.
  intros Hd. unfold transform_trees. by rewrite transform_trees_loop.
Qed.

End transforms.

(** ** Absent identities are skipped *)

Section skipping.
Context {imports : Imports} {UC : Type} {cache : UserCacheOps UC}.

Lemma role_pairs_app (uc : UC) key l1 l2 :
  role_pairs uc key (l1 ++ l2) = role_pairs uc key l1 ++ role_pairs uc key l2.
Proof. apply omap_app. Qed.

Lemma domain_block_roles (uc : UC) data :
  domainroles (domain_block_rows uc data)
  = (if has_key "DOMAIN" data "PARENT" then []
     else domainrole_row (marker_value data) <$> role_keys "DOMAIN" data)
  ∧ domainrole_users (domain_block_rows uc data)
  = (if has_key "DOMAIN" data "PARENT" then []
     else role_keys "DOMAIN" data ≫= λ role,
            role_pairs uc (domainrole_key (marker_value data) role)
              (iter_item "DOMAIN" data role))
  ∧ subdomainroles (domain_block_rows uc data)
  = (if has_key "DOMAIN" data "PARENT"
     then subdomainrole_row (parse_name (marker_value data)).1
            (parse_name (marker_value data)).2 <$> role_keys "DOMAIN" data
     else [])
  ∧ subdomainrole_users (domain_block_rows uc data)
  = (if has_key "DOMAIN" data "PARENT"
     then role_keys "DOMAIN" data ≫= λ role,
            role_pairs uc
              (subdomainrole_key (parse_name (marker_value data)).1
                 (parse_name (marker_value data)).2 role)
              (iter_item "DOMAIN" data role)
     else []).
Proof.
  unfold domain_block_rows. destruct (has_key "DOMAIN" data "PARENT"); [|done].
  by destruct (parse_name (marker_value data)).
Qed.

(** The roles among the keys of a block. *)
Lemma elem_of_role_set marker data role :
  role ∈ role_set marker data
  ↔ role ∈ ROLES ∧ has_key marker data role = true.
Proof.
  unfold role_set, key_set, has_key.
  rewrite elem_of_intersection, elem_of_union, elem_of_singleton, elem_of_dom,
    orb_true_iff, !bool_decide_eq_true.
  done.
Qed.

(** The loop over the role keys of a block goes through each role among
    the keys once, in an order of Python's choosing. *)
Lemma role_keys_Permutation marker data :
  role_keys marker data ≡ₚ elements (role_set marker data).
Proof. apply iter_set_elements. Qed.

Lemma bind_Permutation_ext {A B} (f g : A → list B) (l : list A) :
  (∀ x, f x ≡ₚ g x) → l ≫= f ≡ₚ l ≫= g.
Proof.
  intros Hfg. induction l as [|x l IH]; [done|].
  rewrite !bind_cons. by rewrite (Hfg x), IH.
Qed.

Lemma domain_block_roles_Permutation (uc : UC) data :
  domainroles (domain_block_rows uc data)
  ≡ₚ (if has_key "DOMAIN" data "PARENT" then []
      else domainrole_row (marker_value data)
             <$> elements (role_set "DOMAIN" data))
  ∧ domainrole_users (domain_block_rows uc data)
  ≡ₚ (if has_key "DOMAIN" data "PARENT" then []
      else elements (role_set "DOMAIN" data) ≫= λ role,
             role_pairs uc (domainrole_key (marker_value data) role)
               (iter_item "DOMAIN" data role))
  ∧ subdomainroles (domain_block_rows uc data)
  ≡ₚ (if has_key "DOMAIN" data "PARENT"
      then subdomainrole_row (parse_name (marker_value data)).1
             (parse_name (marker_value data)).2
             <$> elements (role_set "DOMAIN" data)
      else [])
  ∧ subdomainrole_users (domain_block_rows uc data)
  ≡ₚ (if has_key "DOMAIN" data "PARENT"
      then elements (role_set "DOMAIN" data) ≫= λ role,
             role_pairs uc
               (subdomainrole_key (parse_name (marker_value data)).1
                  (parse_name (marker_value data)).2 role)
               (iter_item "DOMAIN" data role)
      else []).
Proof.
  destruct (domain_block_roles uc data) as (-> & -> & -> & ->).
  destruct (has_key "DOMAIN" data "PARENT");
    split_and!; try done; by rewrite role_keys_Permutation.
Qed.

(** C5: a role field value for which the cache's [get] returns the absence
    marker gives no role-user pair, and raises nothing: the pairs of a role
    field are those of the values before it followed by those of the values
    after it.  The other values give their pairs, and the role records do
    not depend on the cache at all: there is one for each role among the
    keys of each block.  transform_domains returns for every input;
    transform_trees returns whenever no block has an empty DOMAIN list,
    whatever the cache answers.  Python does not fix the order in which the
    role keys of a block are iterated, so the lists of role records and of
    pairs are given up to the order of their elements; the pairs of one
    role field come in the order of its values. *)
Theorem transforms_skip_absent_identities (uc : UC)
    (domains_data trees_data : list Block) :
  (∀ key before ustring after,
     UserCache_get uc ustring = None →
     role_pairs uc key (before ++ ustring :: after)
     = role_pairs uc key before ++ role_pairs uc key after) ∧
  (∀ key before ustring after user,
     UserCache_get uc ustring = Some user → user ≠ ∅ →
     role_pairs uc key (before ++ ustring :: after)
     = role_pairs uc key before ++ (key, user) :: role_pairs uc key after) ∧
  (∃ t, transform_domains domains_data uc = Ok t ∧
     domainroles t
     ≡ₚ (domains_data ≫= λ data,
           if has_key "DOMAIN" data "PARENT" then []
           else domainrole_row (marker_value data)
                  <$> elements (role_set "DOMAIN" data)) ∧
     domainrole_users t
     ≡ₚ (domains_data ≫= λ data,
           if has_key "DOMAIN" data "PARENT" then []
           else elements (role_set "DOMAIN" data) ≫= λ role,
                  role_pairs uc (domainrole_key (marker_value data) role)
                    (iter_item "DOMAIN" data role)) ∧
     subdomainroles t
     ≡ₚ (domains_data ≫= λ data,
           if has_key "DOMAIN" data "PARENT"
           then subdomainrole_row (parse_name (marker_value data)).1
                  (parse_name (marker_value data)).2
                  <$> elements (role_set "DOMAIN" data)
           else []) ∧
     subdomainrole_users t
     ≡ₚ (domains_data ≫= λ data,
           if has_key "DOMAIN" data "PARENT"
           then elements (role_set "DOMAIN" data) ≫= λ role,
                  role_pairs uc
                    (subdomainrole_key (parse_name (marker_value data)).1
                       (parse_name (marker_value data)).2 role)
                    (iter_item "DOMAIN" data role)
           else [])) ∧
  (Forall domain_readable trees_data →
   ∃ t, transform_trees trees_data uc = Ok t ∧
     treeroles t
     ≡ₚ (trees_data ≫= λ data,
           treerole_row (marker_value data)
             <$> elements (role_set "TREE PATH" data)) ∧
     treerole_users t
     ≡ₚ (trees_data ≫= λ data,
           elements (role_set "TREE PATH" data) ≫= λ role,
             role_pairs uc (treerole_key (marker_value data) role)
               (iter_item "TREE PATH" data role))) ∧
  (∀ marker data role,
     role ∈ role_set marker data
     ↔ role ∈ ROLES ∧ has_key marker data role = true).
Proof.
  split_and!.
  - intros key before ustring after Hget.
    rewrite role_pairs_app. f_equal. unfold role_pairs at 1. simpl.
    by rewrite Hget.
  - intros key before ustring after user Hget Huser.
    rewrite role_pairs_app. f_equal. unfold role_pairs at 1. simpl.
    rewrite Hget. unfold truthy. by rewrite bool_decide_true.
  - eexists. split; [apply transform_domains_rows|]. simpl.
    split_and!; apply bind_Permutation_ext; intros data;
      apply domain_block_roles_Permutation.
  - intros Hd. eexists. split; [by apply transform_trees_rows|]. simpl.
    split; apply bind_Permutation_ext; intros data; simpl;
      by rewrite role_keys_Permutation.
  - apply elem_of_role_set.
Qed.

End skipping.

(** ** Uncategorized domains and subdomains *)

Lemma parse_name_no_slash name :
  contains "/" name = false →
  parse_name name
  = (if bool_decide (strip name ≠ "") then strip name else NONAME, NONAME).
Proof.
  intros Hc. unfold parse_name. rewrite (not_contains_split1 _ _ Hc). simpl.
  by case_bool_decide.
Qed.

(** C9, as the code has it: transform_domains returns for every input,
    the empty list included; its domains hold one named Uncategorized, and
    its subdomains hold one named Uncategorized under every domain it
    returns.  A subdomain block whose DOMAIN value has no "/" is placed,
    with subdomain Uncategorized, under the value with the white space
    around it stripped, and under the domain Uncategorized when nothing is
    left of the value. *)
Theorem transform_domains_uncategorized {imports : Imports} {UC : Type}
    {cache : UserCacheOps UC}
    (domains_data : list Block) (uc : UC) :
  ∃ t, transform_domains domains_data uc = Ok t ∧
    ({[ "name" := NONAME ]} : Entity) ∈ domains t ∧
    (∀ d : Entity, d ∈ domains t →
       ∃ name, d !! "name" = Some name ∧
         ({[ "name" := NONAME; "domain__name" := name ]} : Entity) ∈ subdomains t) ∧
    (∀ data, data ∈ domains_data →
       has_key "DOMAIN" data "PARENT" = true →
       contains "/" (marker_value data) = false →
       let dname := if bool_decide (strip (marker_value data) ≠ "")
                    then strip (marker_value data) else NONAME in
       parse_name (marker_value data) = (dname, NONAME) ∧
       ({[ "name" := NONAME; "domain__name" := dname ]} : Entity) ∈ subdomains t).
Proof.
  eexists. split; [apply transform_domains_rows|]. simpl. split_and!.
  - left.
  - intros d Hd.
    assert (Hname : ∃ name, d = domain_row name).
    { apply elem_of_cons in Hd as [->|Hd]; [by exists NONAME|].
      apply (domain_rows_named uc) in Hd as (data & _ & _ & ->). eauto. }
    destruct Hname as [name ->]. exists name. split; [done|].
    apply elem_of_app. right.
    exact (list_elem_of_fmap_2' (λ d : Entity, subdomain_row (name_of d) NONAME)
             _ (domain_row name) _ Hd eq_refl).
  - intros data Hin Hparent Hslash.
    pose proof (parse_name_no_slash _ Hslash) as Hp.
    split; [done|]. apply elem_of_app. left.
    apply list_elem_of_bind. exists data. split; [|done].
    unfold domain_block_rows. rewrite Hparent, Hp. simpl. left.
Qed.

(** C9, as stated, fails on a value with white space around it: the
    subdomain block is placed under the stripped value, here "foo", and no
    subdomain is placed under " foo". *)
Lemma transform_domains_strips_value :
  let data := {| marker_value := " foo"; fields := {[ "PARENT" := ["bar"] ]} |} in
  has_key "DOMAIN" data "PARENT" = true ∧
  contains "/" (marker_value data) = false ∧
  parse_name (marker_value data) = ("foo", NONAME) ∧
  ∃ t, transform_domains (imports := Sample.imports) [data] IdentityCache.new = Ok t ∧
       ∀ s : Entity, s ∈ subdomains t → s !! "domain__name" ≠ Some " foo".
Proof.
  split_and!; [done..|].
  eexists. split; [vm_compute; reflexivity|].
  intros s Hs. apply Forall_forall with (x := s) (P := λ s : Entity, s !! "domain__name" ≠ Some " foo") in Hs; [done|].
  repeat constructor; by vm_compute.
Qed.

(** ** The identity cache *)

Section cache_build.
Context {imports : Imports} {UC : Type} {cache : UserCacheOps UC}.

(** The identity strings build_user_cache reads, in the order in which it
    reads them: the blocks of the domain text and then those of the tree
    text, in the order of the lists; in a block, the role fields in the
    order in which Python iterates the set of role keys ([role_keys]); in
    a field, the values in the order of the list. *)
Definition identity_strings (domains_data trees_data : list Block) : list string :=
  (domains_data ≫= λ data,
     role_keys "DOMAIN" data ≫= λ role, iter_item "DOMAIN" data role)
  ++ (trees_data ≫= λ data,
        role_keys "TREE PATH" data ≫= λ role, iter_item "TREE PATH" data role).

Lemma foldl_bind {A B S} (f : S → B → S) (g : A → list B) (s : S) (l : list A) :
  foldl (λ s x, foldl f s (g x)) s l = foldl f s (l ≫= g).
Proof.
  revert s. induction l as [|x l IH]; intros s; [reflexivity|].
  rewrite bind_cons, foldl_app. simpl. apply IH.
Qed.

Lemma update_from_strings marker (uc : UC) blocks :
  update_from marker uc blocks
  = foldl UserCache_update uc
      (blocks ≫= λ data, role_keys marker data ≫= λ role, iter_item marker data role).
Proof.
  unfold update_from. rewrite <- foldl_bind.
  revert uc. induction blocks as [|data blocks IH]; intros uc; simpl; [done|].
  rewrite IH. f_equal. apply foldl_bind.
Qed.

(** build_user_cache registers the identity strings one after the other. *)
Lemma build_user_cache_strings domains_data trees_data :
  build_user_cache domains_data trees_data
  = foldl UserCache_update UserCache_new (identity_strings domains_data trees_data).
Proof.
  unfold build_user_cache, identity_strings.
  by rewrite foldl_app, !update_from_strings.
Qed.

End cache_build.

Module IdentityCacheFacts.
Import IdentityCache.

(** The email of a canonical record. *)
Definition email_of (r : Entity) : string := default "" (r !! "email").

(** The invariant of the cache: a registered string is well formed and
    leads to a record; a record sits under its lowercased email, which is
    the email of a registered string. *)
Record consistent (uc : UserCache) : Prop := {
  registered_wf : ∀ ustring key,
    by_ustring uc !! ustring = Some key →
    ∃ name email, parse_user ustring = Some (name, email) ∧
                  key = lower email ∧ is_Some (by_email uc !! key);
  record_keyed : ∀ key r,
    by_email uc !! key = Some r →
    lower (email_of r) = key ∧
    ∃ ustring, by_ustring uc !! ustring = Some key
}.

Lemma consistent_new : consistent new.
Proof. split; intros ??; unfold new; simpl; by rewrite lookup_empty. Qed.

Lemma consistent_update uc ustring :
  consistent uc → consistent (update uc ustring).
Proof.
  intros [Hwf Hrec]. unfold update.
  destruct (parse_user ustring) as [[name email]|] eqn:Hp; [|by split].
  split; simpl.
  - intros s key. rewrite lookup_insert. case_decide as Hs.
    + subst s. intros [= <-]. exists name, email. split_and!; [done..|].
      destruct (by_email uc !! lower email) eqn:He; [by rewrite He|].
      by rewrite lookup_insert_eq.
    + intros (n & e & ? & -> & Hsome)%Hwf. exists n, e. split_and!; [done..|].
      destruct (by_email uc !! lower email) eqn:He; [done|].
      rewrite lookup_insert. by case_decide.
  - intros key r.
    destruct (by_email uc !! lower email) eqn:He.
    + intros Hr. destruct (Hrec _ _ Hr) as [Hk [s Hs]]. split; [done|].
      destruct (decide (ustring = s)) as [->|Hne].
      * exists s. rewrite lookup_insert_eq.
        destruct (Hwf _ _ Hs) as (n & e & Hp' & -> & _).
        rewrite Hp in Hp'. by injection Hp' as <- <-.
      * exists s. by rewrite lookup_insert_ne.
    + rewrite lookup_insert. case_decide as Hk.
      * subst key. intros [= <-]. split; [done|].
        exists ustring. by rewrite lookup_insert_eq.
      * intros Hr. destruct (Hrec _ _ Hr) as [Hk' [s Hs]]. split; [done|].
        exists s. rewrite lookup_insert_ne; [done|].
        intros ->. destruct (Hwf _ _ Hs) as (n & e & Hp' & -> & _).
        rewrite Hp in Hp'. by injection Hp' as <- <-.
Qed.

Lemma consistent_foldl uc l : consistent uc → consistent (foldl update uc l).
Proof.
  revert uc. induction l as [|x l IH]; intros uc Huc; simpl; [done|].
  by apply IH, consistent_update.
Qed.

(** A well-formed string that was read is registered under its lowercased
    email. *)
Lemma registered_foldl l uc ustring name email :
  parse_user ustring = Some (name, email) →
  ustring ∈ l ∨ by_ustring uc !! ustring = Some (lower email) →
  by_ustring (foldl update uc l) !! ustring = Some (lower email).
Proof.
  intros Hp. revert uc. induction l as [|x l IH]; intros uc; simpl.
  - intros [Hin|Hreg]; [by apply elem_of_nil in Hin | done].
  - intros Hor. apply IH.
    assert (Hx : by_ustring (update uc ustring) !! ustring = Some (lower email)).
    { unfold update. rewrite Hp. simpl. by rewrite lookup_insert_eq. }
    destruct Hor as [[->|Hin]%elem_of_cons|Hreg]; [by right | by left | right].
    destruct (decide (x = ustring)) as [->|Hne]; [done|].
    unfold update. destruct (parse_user x) as [[n e]|]; simpl; [|done].
    by rewrite lookup_insert_ne.
Qed.

Lemma get_registered uc ustring email :
  consistent uc →
  by_ustring uc !! ustring = Some (lower email) →
  ∃ r, get uc ustring = Some r ∧ by_email uc !! lower email = Some r.
Proof.
  intros [Hwf _] Hreg. destruct (Hwf _ _ Hreg) as (_ & _ & _ & _ & [r Hr]).
  exists r. unfold get. rewrite Hreg. simpl. done.
Qed.

Lemma elem_of_all uc r : r ∈ all uc ↔ ∃ key, by_email uc !! key = Some r.
Proof.
  unfold all. rewrite list_elem_of_fmap. split.
  - intros ([key r'] & -> & Hin%elem_of_map_to_list). eauto.
  - intros [key Hr]. exists (key, r). by rewrite elem_of_map_to_list.
Qed.

Lemma all_NoDup uc : consistent uc → NoDup (all uc).
Proof.
  intros [_ Hrec]. unfold all.
  apply (NoDup_fmap_2_strong snd); [|apply NoDup_map_to_list].
  intros [k1 r1] [k2 r2] H1%elem_of_map_to_list H2%elem_of_map_to_list Heq.
  simpl in Heq. subst r2. f_equal.
  destruct (Hrec _ _ H1) as [<- _]. by destruct (Hrec _ _ H2) as [<- _].
Qed.

End IdentityCacheFacts.

(** C4: after build_user_cache, two identity strings of the input whose
    parsed emails are equal up to letter case get the same canonical
    record; and [all()] lists, without repetition, exactly one record for
    each email of the input compared without regard to case, and no other
    record. *)
Theorem build_user_cache_canonical {imports : Imports}
    (domains_data trees_data : list Block) :
  let uc := build_user_cache (UC := IdentityCache.UserCache) domains_data trees_data in
  let strings := identity_strings domains_data trees_data in
  (∀ s1 s2 name1 email1 name2 email2,
     s1 ∈ strings → s2 ∈ strings →
     IdentityCache.parse_user s1 = Some (name1, email1) →
     IdentityCache.parse_user s2 = Some (name2, email2) →
     lower email1 = lower email2 →
     ∃ r, UserCache_get uc s1 = Some r ∧ UserCache_get uc s2 = Some r) ∧
  NoDup (UserCache_all uc) ∧
  (∀ s name email,
     s ∈ strings → IdentityCache.parse_user s = Some (name, email) →
     ∃ r, r ∈ UserCache_all uc ∧
          lower (IdentityCacheFacts.email_of r) = lower email ∧
          ∀ r', r' ∈ UserCache_all uc →
                lower (IdentityCacheFacts.email_of r') = lower email → r' = r) ∧
  (∀ r, r ∈ UserCache_all uc →
     ∃ s name email,
       s ∈ strings ∧ IdentityCache.parse_user s = Some (name, email) ∧
       lower (IdentityCacheFacts.email_of r) = lower email).
Proof.
  intros uc strings.
  assert (Huc : uc = foldl IdentityCache.update IdentityCache.new strings)
    by exact (build_user_cache_strings (UC := IdentityCache.UserCache)
                domains_data trees_data).
  assert (Hcons : IdentityCacheFacts.consistent uc).
  { rewrite Huc. apply IdentityCacheFacts.consistent_foldl,
      IdentityCacheFacts.consistent_new. }
  assert (Hreg : ∀ s name email, s ∈ strings →
    IdentityCache.parse_user s = Some (name, email) →
    IdentityCache.by_ustring uc !! s = Some (lower email)).
  { intros s name email Hin Hp. rewrite Huc.
    eapply IdentityCacheFacts.registered_foldl; eauto. }
  split_and!.
  - intros s1 s2 n1 e1 n2 e2 Hin1 Hin2 Hp1 Hp2 Heq.
    destruct (IdentityCacheFacts.get_registered uc s1 e1 Hcons
                (Hreg _ _ _ Hin1 Hp1)) as (r & Hg1 & Hr1).
    destruct (IdentityCacheFacts.get_registered uc s2 e2 Hcons
                (Hreg _ _ _ Hin2 Hp2)) as (r' & Hg2 & Hr2).
    exists r. split; [done|]. rewrite Heq in Hr1.
    assert (r' = r) as -> by congruence. exact Hg2.
  - by apply IdentityCacheFacts.all_NoDup.
  - intros s name email Hin Hp.
    destruct (IdentityCacheFacts.get_registered uc s email Hcons
                (Hreg _ _ _ Hin Hp)) as (r & _ & Hr).
    exists r. split_and!.
    + apply IdentityCacheFacts.elem_of_all. eauto.
    + by destruct (IdentityCacheFacts.record_keyed uc Hcons _ _ Hr).
    + intros r' [k Hr']%IdentityCacheFacts.elem_of_all Hk.
      destruct (IdentityCacheFacts.record_keyed uc Hcons _ _ Hr') as [Hk' _].
      rewrite Hk in Hk'. subst k. congruence.
  - intros r [k Hr]%IdentityCacheFacts.elem_of_all.
    destruct (IdentityCacheFacts.record_keyed uc Hcons _ _ Hr) as [Hk [s Hs]].
    destruct (IdentityCacheFacts.registered_wf uc Hcons _ _ Hs)
      as (name & email & Hp & -> & _).
    exists s, name, email. split_and!; [|done..].
    (* a registered string was read from the input *)
    revert Hs. rewrite Huc. clear.
    assert (Hgen : ∀ l uc0 key,
      IdentityCache.by_ustring (foldl IdentityCache.update uc0 l) !! s = Some key →
      s ∈ l ∨ IdentityCache.by_ustring uc0 !! s = Some key).
    { induction l as [|x l IH]; intros uc0 key; simpl; [by right|].
      intros [Hin|Hreg]%IH; [left; by right|].
      unfold IdentityCache.update in Hreg.
      destruct (IdentityCache.parse_user x) as [[n e]|]; simpl in Hreg; [|by right].
      rewrite lookup_insert in Hreg. case_decide; [subst x; left; left | by right]. }
    intros [?|Hnew]%Hgen; [done|]. simpl in Hnew. by rewrite lookup_empty in Hnew.
Qed.

(** The example of the specification: two spellings of one email give one
    canonical record. *)
Example build_user_cache_one_record :
  let domains_data :=
    [ {| marker_value := "System";
         fields := {[ "REVIEWER" := ["Alice <a@x.com>"; "alice <A@X.COM>"] ]} |} ] in
  let uc := build_user_cache (imports := Sample.imports) (UC := IdentityCache.UserCache)
              domains_data [] in
  UserCache_all uc = [ {[ "name" := "Alice"; "email" := "a@x.com" ]} ] ∧
  UserCache_get uc "alice <A@X.COM>" = UserCache_get uc "Alice <a@x.com>".
Proof. by vm_compute. Qed.

(** ** from_string *)

(** C6: on byte strings, from_string decodes the domain text and then the
    tree text with the given coding, 'utf8' when none is given, and calls
    from_unicode on the two decoded texts.  When a decoding raises,
    from_string raises that exception with the world as it was:
    from_unicode is not entered, so that no block was parsed and the
    loader was not called. *)
Theorem from_string_decodes_first {imports : Imports} {UC : Type}
    {cache : UserCacheOps UC} {W : Type} {loader : Loader W}
    (domain_bytes tree_bytes : list Byte.byte) (coding : option string) (w : W) :
  let codec := default "utf8" coding in
  from_string (UC := UC) (Str domain_bytes) (Str tree_bytes) coding w
  = match decode domain_bytes codec with
    | Raise e => (w, Raise e)
    | Ok domain_str =>
        match decode tree_bytes codec with
        | Raise e => (w, Raise e)
        | Ok gittree_str => from_unicode (UC := UC) domain_str gittree_str w
        end
    end.
Proof.
  intros codec. unfold from_string. fold codec.
  unfold mbind, M_bind, lift.
  destruct (decode domain_bytes codec) as [domain_str|e]; [|done].
  by destruct (decode tree_bytes codec) as [gittree_str|e].
Qed.

(** ** Hoare triples for computations on a world *)

(** From a world in [P], the computation ends in [Q] when it returns and in
    [E] when it raises. *)
Definition hoare {W A} (P : W → Prop) (m : M W A) (Q : A → W → Prop)
    (E : W → Prop) : Prop :=
  ∀ w, P w → match m w with
             | (w', Ok a) => Q a w'
             | (w', Raise _) => E w'
             end.

Lemma hoare_bind {W A B} (P : W → Prop) (Q : A → W → Prop) (R : B → W → Prop)
    (E : W → Prop) (m : M W A) (f : A → M W B) :
  hoare P m Q E → (∀ a, hoare (Q a) (f a) R E) → hoare P (m ≫= f) R E.
Proof.
  intros Hm Hf w HP. specialize (Hm w HP). unfold mbind, M_bind.
  destruct (m w) as [w' [a|e]]; [|done]. by apply Hf.
Qed.

Lemma hoare_weaken {W A} (P P' : W → Prop) (Q Q' : A → W → Prop)
    (E E' : W → Prop) (m : M W A) :
  hoare P m Q E → (∀ w, P' w → P w) → (∀ a w, Q a w → Q' a w) →
  (∀ w, E w → E' w) → hoare P' m Q' E'.
Proof.
  intros Hm HP HQ HE w HP'. specialize (Hm w (HP _ HP')).
  destruct (m w) as [w' [a|e]]; auto.
Qed.

(** A fact that does not depend on the world moves to the context. *)
Lemma hoare_pure {W A} (φ : Prop) (P : W → Prop) (m : M W A) Q E :
  (φ → hoare P m Q E) → hoare (λ w, P w ∧ φ) m Q E.
Proof. intros Hm w [HP Hφ]. by apply Hm. Qed.

(** ** from_unicode in two phases *)

(** What the transform phase hands to the load phase. *)
Record Plan := {
  plan_users : list Entity;
  plan_domains : DomainTables;
  plan_trees : TreeTables;
  plan_parties : list Entity;
  plan_party_users : list (Entity * Entity)
}.

Section phases.
Context {imports : Imports} {UC : Type} {cache : UserCacheOps UC}.

(** Steps 1 and 2 of from_unicode: parse, extract and transform. *)
Definition extract (domain_str gittree_str : string) : result Plan :=
  domains_data ← parse_blocks domain_str "D" MAPPING;
  trees_data ← parse_blocks gittree_str "T" MAPPING;
  let uc : UC := build_user_cache domains_data trees_data in
  users ← transform_users (UserCache_all uc);
  d ← transform_domains domains_data uc;
  t ← transform_trees trees_data uc;
  pp ← transform_parties users;
  Ok {| plan_users := users; plan_domains := d; plan_trees := t;
        plan_parties := pp.1; plan_party_users := pp.2 |}.

Context {W : Type} {loader : Loader W}.

(** Step 3 of from_unicode: load. *)
Definition load (p : Plan) : M W unit :=
  get_default_loader;;
  sync_entity (plan_users p) User;;
  delete_domains ← sync_entity (domains (plan_domains p)) Domain;
  delete_subdomains ← sync_entity (subdomains (plan_domains p)) SubDomain;
  delete_domainroles ← sync_entity (domainroles (plan_domains p)) DomainRole;
  delete_subdomainroles ←
    sync_entity (subdomainroles (plan_domains p)) SubDomainRole;
  delete_trees ← sync_entity (trees (plan_trees p)) GitTree;
  delete_treeroles ← sync_entity (treeroles (plan_trees p)) GitTreeRole;
  delete_partyroles ← sync_entity (plan_parties p) UserParty;
  sync_nnr (domainrole_users (plan_domains p)) DomainRole User;;
  sync_nnr (subdomainrole_users (plan_domains p)) SubDomainRole User;;
  sync_nnr (tree_licenses (plan_trees p)) GitTree License;;
  sync_nnr (treerole_users (plan_trees p)) GitTreeRole User;;
  sync_nnr (plan_party_users p) UserParty User;;
  delete_partyroles;;
  delete_treeroles;;
  delete_subdomainroles;;
  delete_domainroles;;
  delete_trees;;
  delete_subdomains;;
  delete_domains.

(** from_unicode is the transform phase followed by the load phase; when
    the transform phase raises, the world is left as it was. *)
Lemma from_unicode_phases domain_str gittree_str (w : W) :
  from_unicode (UC := UC) domain_str gittree_str w
  = match extract domain_str gittree_str with
    | Ok p => load p w
    | Raise e => (w, Raise e)
    end.
Proof.
  unfold from_unicode, extract, mbind at 1 2 3 4 5 6, M_bind, lift.
  destruct (parse_blocks domain_str "D" MAPPING) as [domains_data|]; [|done].
  destruct (parse_blocks gittree_str "T" MAPPING) as [trees_data|]; [|done].
  simpl.
  destruct (transform_users _) as [users|]; [|done]. simpl.
  destruct (transform_domains _ _) as [d|]; [|done]. simpl.
  destruct (transform_trees _ _) as [t|]; [|done]. simpl.
  destruct (transform_parties _) as [[parties party_users]|]; [|done].
  reflexivity.
Qed.

End phases.

(** ** The calls from_unicode makes on its loader *)

(** The calls of the load phase, as scm.py lists them. *)
Definition sync_calls : list Event :=
  [ EvSyncEntity User; EvSyncEntity Domain; EvSyncEntity SubDomain;
    EvSyncEntity DomainRole; EvSyncEntity SubDomainRole; EvSyncEntity GitTree;
    EvSyncEntity GitTreeRole; EvSyncEntity UserParty;
    EvSyncNnr DomainRole User; EvSyncNnr SubDomainRole User;
    EvSyncNnr GitTree License; EvSyncNnr GitTreeRole User;
    EvSyncNnr UserParty User ].

Definition delete_calls : list Event :=
  [ EvDelete UserParty; EvDelete GitTreeRole; EvDelete SubDomainRole;
    EvDelete DomainRole; EvDelete GitTree; EvDelete SubDomain; EvDelete Domain ].

Definition calls : list Event := sync_calls ++ delete_calls.

(** Every occurrence of [b] in the log has an [a] before it. *)
Definition before (a b : Event) (log : list Event) : Prop :=
  ∀ l1 l2, log = l1 ++ b :: l2 → a ∈ l1.







Section trace.
Context {W : Type} {inner : Loader W}.

(** The log holds the first [i] calls. *)
Definition logged (i : nat) (wl : W * list Event) : Prop := wl.2 = take i calls.

(** The computation appends one event to the log, whether it returns or
    raises. *)
Definition appends {A} (m : M (W * list Event) A) (ev : Event) : Prop :=
  ∀ wl, (m wl).1.2 = wl.2 ++ [ev].

Lemma record_appends {A} ev (m : M W A) : appends (Traced.record ev m) ev.
Proof. intros [w l]. unfold Traced.record. simpl. by destruct (m w). Qed.

Lemma logged_S i ev wl log :
  calls !! i = Some ev → log = take i calls → wl.2 = log ++ [ev] → logged (S i) wl.
Proof. intros Hi -> Hwl. unfold logged. by rewrite (take_S_r _ _ _ Hi). Qed.

Lemma traced_sync_entity D T i :
  calls !! i = Some (EvSyncEntity T) →
  hoare (logged i) (sync_entity (Loader := Traced.loader) D T)
    (λ del wl, logged (S i) wl ∧ appends del (EvDelete T))
    (λ wl, ∃ k, logged k wl).
Proof.
  intros Hi [w l] Hl. simpl.
  destruct (sync_entity D T w) as [w' [del|e]]; simpl.
  - split; [by eapply logged_S | apply record_appends].
  - exists (S i). by eapply logged_S.
Qed.

Lemma traced_sync_nnr pairs A B i :
  calls !! i = Some (EvSyncNnr A B) →
  hoare (logged i) (sync_nnr (Loader := Traced.loader) pairs A B)
    (λ _ wl, logged (S i) wl) (λ wl, ∃ k, logged k wl).
Proof.
  intros Hi [w l] Hl. simpl. unfold Traced.record. simpl.
  destruct (sync_nnr pairs A B w) as [w' [[]|e]]; simpl.
  - by eapply logged_S.
  - exists (S i). by eapply logged_S.
Qed.

Lemma traced_get_default_loader i :
  hoare (logged i) (get_default_loader (Loader := Traced.loader))
    (λ _ wl, logged i wl) (λ wl, ∃ k, logged k wl).
Proof.
  intros [w l] Hl. simpl.
  destruct (get_default_loader w) as [w' [[]|e]]; simpl; [done|by exists i].
Qed.

Lemma traced_closure (del : M (W * list Event) unit) T i :
  appends del (EvDelete T) → calls !! i = Some (EvDelete T) →
  hoare (logged i) del (λ _ wl, logged (S i) wl) (λ wl, ∃ k, logged k wl).
Proof.
  intros Hdel Hi wl Hl. specialize (Hdel wl).
  destruct (del wl) as [wl' [[]|e]]; simpl in *.
  - by eapply logged_S.
  - exists (S i). by eapply logged_S.
Qed.

(** The load phase logs the calls in the order of [calls], up to the call
    that raises. *)
Lemma load_logged (p : Plan) :
  hoare (logged 0) (load (loader := Traced.loader) p)
    (λ _ wl, logged 20 wl) (λ wl, ∃ k, logged k wl).
Proof.
  unfold load.
  eapply hoare_bind; [apply traced_get_default_loader|intros ?].
  (* the closure of the users is dropped *)
  eapply hoare_bind; [by apply traced_sync_entity|intros d0; apply hoare_pure; intros _].
  eapply hoare_bind; [by apply traced_sync_entity|intros d1; apply hoare_pure; intros H1].
  eapply hoare_bind; [by apply traced_sync_entity|intros d2; apply hoare_pure; intros H2].
  eapply hoare_bind; [by apply traced_sync_entity|intros d3; apply hoare_pure; intros H3].
  eapply hoare_bind; [by apply traced_sync_entity|intros d4; apply hoare_pure; intros H4].
  eapply hoare_bind; [by apply traced_sync_entity|intros d5; apply hoare_pure; intros H5].
  eapply hoare_bind; [by apply traced_sync_entity|intros d6; apply hoare_pure; intros H6].
  eapply hoare_bind; [by apply traced_sync_entity|intros d7; apply hoare_pure; intros H7].
  do 5 (eapply hoare_bind; [by apply traced_sync_nnr|intros ?]).
  eapply hoare_bind; [by eapply (traced_closure d7)|intros ?].
  eapply hoare_bind; [by eapply (traced_closure d6)|intros ?].
  eapply hoare_bind; [by eapply (traced_closure d4)|intros ?].
  eapply hoare_bind; [by eapply (traced_closure d3)|intros ?].
  eapply hoare_bind; [by eapply (traced_closure d5)|intros ?].
  eapply hoare_bind; [by eapply (traced_closure d2)|intros ?].
  by eapply (traced_closure d1).
Qed.

Context {imports : Imports} {UC : Type} {cache : UserCacheOps UC}.

(** The log of a run of from_unicode is a prefix of [calls], and all of
    [calls] when the run returns. *)
Lemma from_unicode_logged domain_str gittree_str (w : W) :
  let run := from_unicode (UC := UC) (loader := Traced.loader)
               domain_str gittree_str (w, []) in
  (∃ k, run.1.2 = take k calls) ∧ (run.2 = Ok tt → run.1.2 = calls).
Proof.
  intros run. unfold run. rewrite from_unicode_phases.
  destruct (extract domain_str gittree_str) as [p|e].
  - pose proof (load_logged p (w, []) eq_refl) as Hl.
    destruct (load p (w, [])) as [wl [[]|e]]; simpl.
    + split; [by exists 20|done].
    + split; [done|discriminate].
  - split; [by exists 0|discriminate].
Qed.

End trace.

Section call_order.
Context {W : Type} {inner : Loader W}.
Context {imports : Imports} {UC : Type} {cache : UserCacheOps UC}.



End call_order.

(** ** The reconciliation engine *)

Module EngineFacts.
Import Engine.

Section facts.
Context (schema : Schema).

(** *** Keys *)

(** The key [resolve] returns is the natural key; the store is read for
    the parents only. *)
Lemma resolve_natural_key T w d k :
  resolve schema T w d = Ok k → natural_key schema T d = Ok k.
Proof.
  unfold resolve. destruct (natural_key schema T d) as [k'|]; simpl; [|done].
  by destruct (map_result _ _); simpl; intros [= <-].
Qed.

Lemma map_result_ext_Ok {A B} (f g : A → result B) l ys :
  (∀ x y, f x = Ok y → g x = Ok y) → map_result f l = Ok ys → map_result g l = Ok ys.
Proof.
  intros Hfg. revert ys. induction l as [|x l IH]; intros ys; simpl; [done|].
  destruct (f x) as [y|] eqn:Hx; simpl; [|done]. rewrite (Hfg _ _ Hx). simpl.
  destruct (map_result f l) as [ys'|]; simpl; [|done].
  intros [= <-]. by rewrite (IH _ eq_refl).
Qed.

Lemma resolve_all_natural_keys T w D ks :
  map_result (resolve schema T w) D = Ok ks →
  map_result (natural_key schema T) D = Ok ks.
Proof. apply map_result_ext_Ok. intros d k. apply resolve_natural_key. Qed.

(** The natural keys of the two ends of a relation pair. *)
Definition pair_keys (A B : Table) (p : Entity * Entity) : result (Key * Key) :=
  ka ← natural_key schema A p.1; kb ← natural_key schema B p.2; Ok (ka, kb).

Lemma resolve_pairs_natural_keys A B w pairs es :
  map_result (λ p : Entity * Entity,
    ka ← resolve_row schema A w p.1; kb ← resolve_row schema B w p.2; Ok (ka, kb))
    pairs = Ok es →
  map_result (pair_keys A B) pairs = Ok es.
Proof.
  apply map_result_ext_Ok. intros p e. unfold pair_keys, resolve_row.
  destruct (natural_key schema A p.1) as [ka|]; simpl; [|done].
  case_bool_decide; simpl; [|done].
  destruct (natural_key schema B p.2) as [kb|]; simpl; [|done].
  by case_bool_decide.
Qed.

(** *** Rows *)

(** The row under key [k] after the desired entities [kds], from the row
    [r] before: every entity with that key is laid over it in turn. *)
Definition overlay (kds : list (Key * Entity)) (k : Key) (r : option Entity)
    : option Entity :=
  foldl (λ r kd, if decide (kd.1 = k) then Some (kd.2 ∪ default ∅ r) else r) r kds.

Lemma lookup_upsert T m kd T' k :
  upsert T m kd !! (T', k)
  = if decide (T' = T)
    then (if decide (kd.1 = k) then Some (kd.2 ∪ default ∅ (m !! (T, k)))
          else m !! (T, k))
    else m !! (T', k).
Proof.
  unfold upsert. rewrite lookup_insert.
  repeat case_decide; simplify_eq; done.
Qed.

Lemma lookup_upsert_all T kds m T' k :
  upsert_all T kds m !! (T', k)
  = if decide (T' = T) then overlay kds k (m !! (T, k)) else m !! (T', k).
Proof.
  unfold upsert_all, overlay. revert m.
  induction kds as [|kd kds IH]; intros m; simpl.
  - by case_decide; simplify_eq.
  - rewrite IH, !lookup_upsert. by repeat case_decide; simplify_eq.
Qed.

Lemma lookup_delete_all T ks m T' k :
  delete_all T ks m !! (T', k)
  = if decide (T' = T)
    then (if decide (k ∈ ks) then None else m !! (T, k))
    else m !! (T', k).
Proof.
  unfold delete_all. induction ks as [|x ks IH]; simpl.
  - repeat case_decide; simplify_eq; try done;
      by match goal with H : _ ∈ [] |- _ => apply elem_of_nil in H end.
  - rewrite lookup_delete, IH.
    repeat case_decide; simplify_eq; try done;
      match goal with
      | H : ¬ _ ∈ _ :: _ |- _ => destruct H; by constructor
      | H : _ ∈ _ :: _ |- _ => apply elem_of_cons in H as [?|?]; congruence
      end.
Qed.

Lemma lookup_upsert_all_eq T kds m k :
  upsert_all T kds m !! (T, k) = overlay kds k (m !! (T, k)).
Proof. rewrite lookup_upsert_all. by case_decide. Qed.

Lemma lookup_upsert_all_ne T kds m T' k :
  T' ≠ T → upsert_all T kds m !! (T', k) = m !! (T', k).
Proof. intros. rewrite lookup_upsert_all. by case_decide. Qed.

Lemma lookup_delete_all_eq T ks m k :
  delete_all T ks m !! (T, k) = if decide (k ∈ ks) then None else m !! (T, k).
Proof. rewrite lookup_delete_all. by case_decide. Qed.

Lemma lookup_delete_all_ne T ks m T' k :
  T' ≠ T → delete_all T ks m !! (T', k) = m !! (T', k).
Proof. intros. rewrite lookup_delete_all. by case_decide. Qed.

(** Reading one row through one step of a run. *)
Ltac through H :=
  rewrite H;
  first [ rewrite lookup_delete_all_ne by discriminate
        | rewrite lookup_upsert_all_ne by discriminate
        | rewrite lookup_delete_all_eq
        | rewrite lookup_upsert_all_eq
        | idtac ].

Lemma elem_of_table_keys T m k : k ∈ table_keys T m ↔ is_Some (m !! (T, k)).
Proof.
  unfold table_keys. rewrite list_elem_of_omap. split.
  - intros ([[T' k'] r] & Hin%elem_of_map_to_list & Hk). simpl in Hk.
    case_decide; [|done]. injection Hk as ->. subst T'. eauto.
  - intros [r Hr]. exists (T, k, r). split; [by apply elem_of_map_to_list|].
    simpl. by case_decide.
Qed.

Lemma elem_of_stale_keys T ks m k :
  k ∈ stale_keys T ks m ↔ (k ∉ ks) ∧ is_Some (m !! (T, k)).
Proof.
  unfold stale_keys. rewrite list_elem_of_filter.
  by rewrite elem_of_table_keys.
Qed.

(** The entities of [kds] laid over each other under key [k]. *)
Definition combined (kds : list (Key * Entity)) (k : Key) : option Entity :=
  overlay kds k None.

Lemma overlay_snoc kds kd k r :
  overlay (kds ++ [kd]) k r
  = if decide (kd.1 = k) then Some (kd.2 ∪ default ∅ (overlay kds k r))
    else overlay kds k r.
Proof. unfold overlay. by rewrite foldl_app. Qed.

Lemma overlay_combined kds k r :
  overlay kds k r
  = match combined kds k with
    | Some u => Some (u ∪ default ∅ r)
    | None => r
    end.
Proof.
  unfold combined. induction kds as [|kd kds IH] using rev_ind; [done|].
  rewrite !overlay_snoc. case_decide; [|done].
  rewrite IH. destruct (overlay kds k None) as [u|]; simpl.
  - by rewrite (assoc_L (∪)).
  - by rewrite (right_id_L ∅ (∪)).
Qed.

(** Laying the desired entities over the rows twice is laying them once. *)
Lemma overlay_idemp kds k r :
  overlay kds k (overlay kds k r) = overlay kds k r.
Proof.
  rewrite !overlay_combined. destruct (combined kds k) as [u|]; [|done].
  simpl. f_equal. rewrite (assoc_L (∪)). f_equal. apply (idemp_L (∪)).
Qed.

Lemma combined_zip_None ks D k :
  length ks = length D → (combined (zip ks D) k = None ↔ k ∉ ks).
Proof.
  intros Hlen. unfold combined.
  revert D Hlen. induction ks as [|x ks IH] using rev_ind; intros D Hlen.
  - simpl. split; [intros _; apply not_elem_of_nil | done].
  - destruct D as [|d D _] using rev_ind.
    { rewrite length_app in Hlen. simpl in Hlen. lia. }
    rewrite !length_app in Hlen. simpl in Hlen.
    rewrite zip_with_app by lia. simpl. rewrite overlay_snoc. simpl.
    rewrite not_elem_of_app, list_elem_of_singleton.
    case_decide as Hx.
    + split; [done|]. intros [_ ?]. congruence.
    + rewrite IH by lia. split; [intros ?; split; [done|congruence] | by intros []].
Qed.

(** *** What a sync leaves behind *)

(** The rows of table [T] once its desired entities are synced and its
    stale rows deleted: syncing the same entities again changes nothing,
    and no row is left that is not desired. *)
Lemma settled ks D (old new : Key → option Entity) (stale : list Key) :
  length ks = length D →
  (∀ k, k ∈ stale ↔ (k ∉ ks) ∧ is_Some (old k)) →
  (∀ k, new k = if decide (k ∈ stale) then None
                else overlay (zip ks D) k (old k)) →
  (∀ k, overlay (zip ks D) k (new k) = new k) ∧
  (∀ k, is_Some (new k) → k ∈ ks).
Proof.
  intros Hlen Hstale Hafter. split; intros k; rewrite !Hafter.
  - case_decide as Hk; [|apply overlay_idemp].
    rewrite overlay_combined.
    apply Hstale in Hk as [Hk _]. apply (combined_zip_None _ D) in Hk; [|done].
    by rewrite Hk.
  - case_decide as Hk; [by intros [? ?]|].
    rewrite overlay_combined.
    destruct (combined (zip ks D) k) as [u|] eqn:Hu.
    + intros _. destruct (decide (k ∈ ks)) as [|Hn]; [done|].
      apply (combined_zip_None _ D) in Hn; [|done]. congruence.
    + intros Hsome. destruct (decide (k ∈ ks)) as [|Hn]; [done|].
      destruct Hk. apply Hstale. done.
Qed.

(** *** Edges *)

Lemma elem_of_sync_edges A B es scope E x :
  x ∈ sync_edges A B es scope E
  ↔ (x ∈ E ∧ ¬ (x.1 = (A, B) ∧ x.2.1 ∈ scope)) ∨ (x.1 = (A, B) ∧ x.2 ∈ es).
Proof.
  unfold sync_edges. rewrite elem_of_union, elem_of_filter, elem_of_list_to_set,
    list_elem_of_fmap.
  split; (intros [H|H]; [left; tauto|right]).
  - destruct H as (e & -> & He). done.
  - destruct x as [AB e]. destruct H as [H He]. simpl in *. subst AB. by exists e.
Qed.

(** Reconciling a relation twice is reconciling it once. *)
Lemma sync_edges_idemp A B es scope E :
  sync_edges A B es scope (sync_edges A B es scope E) = sync_edges A B es scope E.
Proof.
  apply set_eq. intros x. rewrite !elem_of_sync_edges. tauto.
Qed.

(** A reconciled relation stays so when another relation is reconciled. *)
Lemma sync_edges_other A B es scope A' B' es' scope' E :
  (A, B) ≠ (A', B') →
  sync_edges A B es scope E = E →
  sync_edges A B es scope (sync_edges A' B' es' scope' E)
  = sync_edges A' B' es' scope' E.
Proof.
  intros Hne Hfix. apply set_eq. intros x.
  assert (HE : x ∈ E ↔ (x ∈ E ∧ ¬ (x.1 = (A, B) ∧ x.2.1 ∈ scope))
                       ∨ (x.1 = (A, B) ∧ x.2 ∈ es)).
  { rewrite <- elem_of_sync_edges. by rewrite Hfix. }
  rewrite !elem_of_sync_edges. split.
  - intros [[Hx _]|[Htag Hes]]; [done|].
    left. split; [apply HE; by right|]. intros [Htag' _]. congruence.
  - intros [[Hx Hout]|[Htag Hes]].
    + apply HE in Hx as [[Hx Hout']|Hin]; [|by right].
      left. split; [|done]. left. done.
    + left. split; [by right|]. intros [Htag' _]. congruence.
Qed.

(** *** The steps of the loader *)

Lemma sync_entity_Ok D T w w' del :
  sync_entity schema D T w = (w', Ok del) →
  ∃ ks, map_result (natural_key schema T) D = Ok ks ∧
        rows w' = upsert_all T (zip ks D) (rows w) ∧
        edges w' = edges w ∧
        desired w' = <[T := list_to_set ks]> (desired w) ∧
        del = delete_rows T (stale_keys T ks (rows w)).
Proof.
  unfold sync_entity.
  destruct (map_result (resolve schema T w) D) as [ks|] eqn:Hks; [|done].
  intros [= <- <-]. exists ks. split; [by eapply resolve_all_natural_keys|done].
Qed.

Lemma sync_entity_Raise D T w w' e :
  sync_entity schema D T w = (w', Raise e) → w' = w.
Proof.
  unfold sync_entity.
  destruct (map_result (resolve schema T w) D); [done|]. by intros [= <-].
Qed.

Lemma sync_nnr_Ok pairs A B w w' :
  sync_nnr schema pairs A B w = (w', Ok tt) →
  ∃ es, map_result (pair_keys A B) pairs = Ok es ∧
        rows w' = rows w ∧
        edges w' = sync_edges A B es (default ∅ (desired w !! A)) (edges w) ∧
        desired w' = desired w.
Proof.
  unfold sync_nnr.
  destruct (map_result _ pairs) as [es|] eqn:Hes; [|done].
  intros [= <-]. exists es. split; [by eapply resolve_pairs_natural_keys|done].
Qed.

Lemma sync_nnr_Raise pairs A B w w' e :
  sync_nnr schema pairs A B w = (w', Raise e) → w' = w.
Proof.
  unfold sync_nnr. destruct (map_result _ pairs); [done|]. by intros [= <-].
Qed.

Lemma bind_Ok_inv {A B} (m : M World A) (f : A → M World B) w w1 b :
  (m ≫= f) w = (w1, Ok b) → ∃ w' a, m w = (w', Ok a) ∧ f a w' = (w1, Ok b).
Proof.
  unfold mbind, M_bind. destruct (m w) as [w' [a|e]]; [eauto|done].
Qed.

Lemma get_default_loader_Ok w w' r :
  get_default_loader w = (w', r) →
  r = Ok tt ∧ rows w' = rows w ∧ edges w' = edges w ∧ desired w' = ∅.
Proof. unfold get_default_loader. by intros [= <- <-]. Qed.

Lemma delete_rows_Ok T stale w w' r :
  delete_rows T stale w = (w', r) →
  r = Ok tt ∧ rows w' = delete_all T stale (rows w) ∧ edges w' = edges w ∧
  desired w' = desired w.
Proof. unfold delete_rows. by intros [= <- <-]. Qed.

(** *** A second run on a settled store *)

(** The persisted part of the world is [(R, Ed)], and the loader has
    synced [De]. *)
Definition at_store (R : gmap (Table * Key) Entity)
    (Ed : gset (Table * Table * (Key * Key))) (De : gmap Table (gset Key))
    (w : World) : Prop :=
  rows w = R ∧ edges w = Ed ∧ desired w = De.

Definition same_store (R : gmap (Table * Key) Entity)
    (Ed : gset (Table * Table * (Key * Key))) (w : World) : Prop :=
  rows w = R ∧ edges w = Ed.

Lemma quiet_get_default_loader R Ed :
  hoare (same_store R Ed) get_default_loader
    (λ _, at_store R Ed ∅) (same_store R Ed).
Proof. intros w [Hr He]. simpl. done. Qed.

Lemma quiet_sync_entity D T ks R Ed De :
  map_result (natural_key schema T) D = Ok ks →
  (∀ k, overlay (zip ks D) k (R !! (T, k)) = R !! (T, k)) →
  hoare (at_store R Ed De) (sync_entity schema D T)
    (λ del w, at_store R Ed (<[T := list_to_set ks]> De) w ∧
              del = delete_rows T (stale_keys T ks R))
    (same_store R Ed).
Proof.
  intros Hks Hquiet w (Hr & He & Hd).
  destruct (sync_entity schema D T w) as [w' [del|e]] eqn:Hs.
  - apply sync_entity_Ok in Hs as (ks' & Hks' & Hr' & He' & Hd' & ->).
    rewrite Hks in Hks'. injection Hks' as <-.
    rewrite Hr in *. split; [|done]. split_and!; [|congruence..].
    rewrite Hr'. apply map_eq. intros [T' k]. rewrite lookup_upsert_all.
    case_decide; [|done]. subst T'. apply Hquiet.
  - apply sync_entity_Raise in Hs as ->. by split.
Qed.

Lemma quiet_sync_nnr pairs A B es R Ed De :
  map_result (pair_keys A B) pairs = Ok es →
  sync_edges A B es (default ∅ (De !! A)) Ed = Ed →
  hoare (at_store R Ed De) (sync_nnr schema pairs A B)
    (λ _, at_store R Ed De) (same_store R Ed).
Proof.
  intros Hes Hfix w (Hr & He & Hd).
  destruct (sync_nnr schema pairs A B w) as [w' [[]|e]] eqn:Hs.
  - apply sync_nnr_Ok in Hs as (es' & Hes' & Hr' & He' & Hd').
    rewrite Hes in Hes'. injection Hes' as <-.
    split_and!; [congruence| |congruence]. rewrite He', Hd, He. done.
  - apply sync_nnr_Raise in Hs as ->. by split.
Qed.

Lemma quiet_delete_rows T ks R Ed De :
  (∀ k, is_Some (R !! (T, k)) → k ∈ ks) →
  hoare (at_store R Ed De) (delete_rows T (stale_keys T ks R))
    (λ _, at_store R Ed De) (same_store R Ed).
Proof.
  intros Hclosed w (Hr & He & Hd). simpl. split_and!; simpl; [|done..].
  rewrite Hr. apply map_eq. intros [T' k]. rewrite lookup_delete_all.
  case_decide; [|done]. subst T'. case_decide as Hk; [|done].
  apply elem_of_stale_keys in Hk as [Hk Hsome]. destruct Hk. by apply Hclosed.
Qed.

Lemma load_idempotent p w0 wf :
  load (loader := loader schema) p w0 = (wf, Ok tt) →
  persisted (load (loader := loader schema) p wf).1 = persisted wf.
Proof.
  intros Hrun. unfold load in Hrun.
  apply bind_Ok_inv in Hrun as (wa & [] & Ha & Hrun).
  apply bind_Ok_inv in Hrun as (u1 & d1 & H1 & Hrun).
  apply bind_Ok_inv in Hrun as (u2 & d2 & H2 & Hrun).
  apply bind_Ok_inv in Hrun as (u3 & d3 & H3 & Hrun).
  apply bind_Ok_inv in Hrun as (u4 & d4 & H4 & Hrun).
  apply bind_Ok_inv in Hrun as (u5 & d5 & H5 & Hrun).
  apply bind_Ok_inv in Hrun as (u6 & d6 & H6 & Hrun).
  apply bind_Ok_inv in Hrun as (u7 & d7 & H7 & Hrun).
  apply bind_Ok_inv in Hrun as (u8 & d8 & H8 & Hrun).
  apply bind_Ok_inv in Hrun as (n1 & [] & N1 & Hrun).
  apply bind_Ok_inv in Hrun as (n2 & [] & N2 & Hrun).
  apply bind_Ok_inv in Hrun as (n3 & [] & N3 & Hrun).
  apply bind_Ok_inv in Hrun as (n4 & [] & N4 & Hrun).
  apply bind_Ok_inv in Hrun as (n5 & [] & N5 & Hrun).
  apply bind_Ok_inv in Hrun as (c1 & [] & C1 & Hrun).
  apply bind_Ok_inv in Hrun as (c2 & [] & C2 & Hrun).
  apply bind_Ok_inv in Hrun as (c3 & [] & C3 & Hrun).
  apply bind_Ok_inv in Hrun as (c4 & [] & C4 & Hrun).
  apply bind_Ok_inv in Hrun as (c5 & [] & C5 & Hrun).
  apply bind_Ok_inv in Hrun as (c6 & [] & C6 & C7).
  apply get_default_loader_Ok in Ha as (_ & Hra & Hea & Hda).
  apply sync_entity_Ok in H1 as (ks1 & K1 & Hr1 & He1 & Hd1 & ->).
  apply sync_entity_Ok in H2 as (ks2 & K2 & Hr2 & He2 & Hd2 & ->).
  apply sync_entity_Ok in H3 as (ks3 & K3 & Hr3 & He3 & Hd3 & ->).
  apply sync_entity_Ok in H4 as (ks4 & K4 & Hr4 & He4 & Hd4 & ->).
  apply sync_entity_Ok in H5 as (ks5 & K5 & Hr5 & He5 & Hd5 & ->).
  apply sync_entity_Ok in H6 as (ks6 & K6 & Hr6 & He6 & Hd6 & ->).
  apply sync_entity_Ok in H7 as (ks7 & K7 & Hr7 & He7 & Hd7 & ->).
  apply sync_entity_Ok in H8 as (ks8 & K8 & Hr8 & He8 & Hd8 & ->).
  apply sync_nnr_Ok in N1 as (es1 & P1 & Hrn1 & Hen1 & Hdn1).
  apply sync_nnr_Ok in N2 as (es2 & P2 & Hrn2 & Hen2 & Hdn2).
  apply sync_nnr_Ok in N3 as (es3 & P3 & Hrn3 & Hen3 & Hdn3).
  apply sync_nnr_Ok in N4 as (es4 & P4 & Hrn4 & Hen4 & Hdn4).
  apply sync_nnr_Ok in N5 as (es5 & P5 & Hrn5 & Hen5 & Hdn5).
  apply delete_rows_Ok in C1 as (_ & Hrc1 & Hec1 & Hdc1).
  apply delete_rows_Ok in C2 as (_ & Hrc2 & Hec2 & Hdc2).
  apply delete_rows_Ok in C3 as (_ & Hrc3 & Hec3 & Hdc3).
  apply delete_rows_Ok in C4 as (_ & Hrc4 & Hec4 & Hdc4).
  apply delete_rows_Ok in C5 as (_ & Hrc5 & Hec5 & Hdc5).
  apply delete_rows_Ok in C6 as (_ & Hrc6 & Hec6 & Hdc6).
  apply delete_rows_Ok in C7 as (_ & Hrc7 & Hec7 & Hdc7).
  (* the rows of each table at the end of the run *)
  assert (Col1 : ∀ k, rows wf !! (User, k)
    = overlay (zip ks1 (plan_users p)) k (rows wa !! (User, k))).
  { intros k. through Hrc7. through Hrc6. through Hrc5. through Hrc4.
    through Hrc3. through Hrc2. through Hrc1.
    rewrite Hrn5, Hrn4, Hrn3, Hrn2, Hrn1.
    through Hr8. through Hr7. through Hr6. through Hr5. through Hr4.
    through Hr3. through Hr2. through Hr1. done. }
  assert (Col2 : ∀ k, rows wf !! (Domain, k)
    = if decide (k ∈ stale_keys Domain ks2 (rows u1)) then None
      else overlay (zip ks2 (domains (plan_domains p))) k (rows u1 !! (Domain, k))).
  { intros k. through Hrc7. through Hrc6. through Hrc5. through Hrc4.
    through Hrc3. through Hrc2. through Hrc1.
    rewrite Hrn5, Hrn4, Hrn3, Hrn2, Hrn1.
    through Hr8. through Hr7. through Hr6. through Hr5. through Hr4. through Hr3. through Hr2. done. }
  assert (Col3 : ∀ k, rows wf !! (SubDomain, k)
    = if decide (k ∈ stale_keys SubDomain ks3 (rows u2)) then None
      else overlay (zip ks3 (subdomains (plan_domains p))) k (rows u2 !! (SubDomain, k))).
  { intros k. through Hrc7. through Hrc6. through Hrc5. through Hrc4.
    through Hrc3. through Hrc2. through Hrc1.
    rewrite Hrn5, Hrn4, Hrn3, Hrn2, Hrn1.
    through Hr8. through Hr7. through Hr6. through Hr5. through Hr4. through Hr3. done. }
  assert (Col4 : ∀ k, rows wf !! (DomainRole, k)
    = if decide (k ∈ stale_keys DomainRole ks4 (rows u3)) then None
      else overlay (zip ks4 (domainroles (plan_domains p))) k (rows u3 !! (DomainRole, k))).
  { intros k. through Hrc7. through Hrc6. through Hrc5. through Hrc4.
    through Hrc3. through Hrc2. through Hrc1.
    rewrite Hrn5, Hrn4, Hrn3, Hrn2, Hrn1.
    through Hr8. through Hr7. through Hr6. through Hr5. through Hr4. done. }
  assert (Col5 : ∀ k, rows wf !! (SubDomainRole, k)
    = if decide (k ∈ stale_keys SubDomainRole ks5 (rows u4)) then None
      else overlay (zip ks5 (subdomainroles (plan_domains p))) k (rows u4 !! (SubDomainRole, k))).
  { intros k. through Hrc7. through Hrc6. through Hrc5. through Hrc4.
    through Hrc3. through Hrc2. through Hrc1.
    rewrite Hrn5, Hrn4, Hrn3, Hrn2, Hrn1.
    through Hr8. through Hr7. through Hr6. through Hr5. done. }
  assert (Col6 : ∀ k, rows wf !! (GitTree, k)
    = if decide (k ∈ stale_keys GitTree ks6 (rows u5)) then None
      else overlay (zip ks6 (trees (plan_trees p))) k (rows u5 !! (GitTree, k))).
  { intros k. through Hrc7. through Hrc6. through Hrc5. through Hrc4.
    through Hrc3. through Hrc2. through Hrc1.
    rewrite Hrn5, Hrn4, Hrn3, Hrn2, Hrn1.
    through Hr8. through Hr7. through Hr6. done. }
  assert (Col7 : ∀ k, rows wf !! (GitTreeRole, k)
    = if decide (k ∈ stale_keys GitTreeRole ks7 (rows u6)) then None
      else overlay (zip ks7 (treeroles (plan_trees p))) k (rows u6 !! (GitTreeRole, k))).
  { intros k. through Hrc7. through Hrc6. through Hrc5. through Hrc4.
    through Hrc3. through Hrc2. through Hrc1.
    rewrite Hrn5, Hrn4, Hrn3, Hrn2, Hrn1.
    through Hr8. through Hr7. done. }
  assert (Col8 : ∀ k, rows wf !! (UserParty, k)
    = if decide (k ∈ stale_keys UserParty ks8 (rows u7)) then None
      else overlay (zip ks8 (plan_parties p)) k (rows u7 !! (UserParty, k))).
  { intros k. through Hrc7. through Hrc6. through Hrc5. through Hrc4.
    through Hrc3. through Hrc2. through Hrc1.
    rewrite Hrn5, Hrn4, Hrn3, Hrn2, Hrn1.
    through Hr8. done. }
  (* syncing again changes no row, and no stale row is left *)
  assert (Q1 : ∀ k, overlay (zip ks1 (plan_users p)) k (rows wf !! (User, k))
                    = rows wf !! (User, k)).
  { intros k. rewrite Col1. apply overlay_idemp. }
  destruct (settled ks2 (domains (plan_domains p))
              (λ k, rows u1 !! (Domain, k)) (λ k, rows wf !! (Domain, k))
              (stale_keys Domain ks2 (rows u1))
              (map_result_length _ _ _ K2)
              (λ k, elem_of_stale_keys Domain ks2 (rows u1) k) Col2) as [Q2 L2].
  destruct (settled ks3 (subdomains (plan_domains p))
              (λ k, rows u2 !! (SubDomain, k)) (λ k, rows wf !! (SubDomain, k))
              (stale_keys SubDomain ks3 (rows u2))
              (map_result_length _ _ _ K3)
              (λ k, elem_of_stale_keys SubDomain ks3 (rows u2) k) Col3) as [Q3 L3].
  destruct (settled ks4 (domainroles (plan_domains p))
              (λ k, rows u3 !! (DomainRole, k)) (λ k, rows wf !! (DomainRole, k))
              (stale_keys DomainRole ks4 (rows u3))
              (map_result_length _ _ _ K4)
              (λ k, elem_of_stale_keys DomainRole ks4 (rows u3) k) Col4) as [Q4 L4].
  destruct (settled ks5 (subdomainroles (plan_domains p))
              (λ k, rows u4 !! (SubDomainRole, k)) (λ k, rows wf !! (SubDomainRole, k))
              (stale_keys SubDomainRole ks5 (rows u4))
              (map_result_length _ _ _ K5)
              (λ k, elem_of_stale_keys SubDomainRole ks5 (rows u4) k) Col5) as [Q5 L5].
  destruct (settled ks6 (trees (plan_trees p))
              (λ k, rows u5 !! (GitTree, k)) (λ k, rows wf !! (GitTree, k))
              (stale_keys GitTree ks6 (rows u5))
              (map_result_length _ _ _ K6)
              (λ k, elem_of_stale_keys GitTree ks6 (rows u5) k) Col6) as [Q6 L6].
  destruct (settled ks7 (treeroles (plan_trees p))
              (λ k, rows u6 !! (GitTreeRole, k)) (λ k, rows wf !! (GitTreeRole, k))
              (stale_keys GitTreeRole ks7 (rows u6))
              (map_result_length _ _ _ K7)
              (λ k, elem_of_stale_keys GitTreeRole ks7 (rows u6) k) Col7) as [Q7 L7].
  destruct (settled ks8 (plan_parties p)
              (λ k, rows u7 !! (UserParty, k)) (λ k, rows wf !! (UserParty, k))
              (stale_keys UserParty ks8 (rows u7))
              (map_result_length _ _ _ K8)
              (λ k, elem_of_stale_keys UserParty ks8 (rows u7) k) Col8) as [Q8 L8].
  (* the relations at the end of the run *)
  set (De := <[UserParty:=list_to_set ks8]> (<[GitTreeRole:=list_to_set ks7]>
             (<[GitTree:=list_to_set ks6]> (<[SubDomainRole:=list_to_set ks5]>
             (<[DomainRole:=list_to_set ks4]> (<[SubDomain:=list_to_set ks3]>
             (<[Domain:=list_to_set ks2]> (<[User:=list_to_set ks1]>
             (∅ : gmap Table (gset Key)))))))))).
  assert (HDe : desired u8 = De).
  { by rewrite Hd8, Hd7, Hd6, Hd5, Hd4, Hd3, Hd2, Hd1, Hda. }
  assert (HEd : edges wf
    = sync_edges UserParty User es5 (default ∅ (De !! UserParty))
        (sync_edges GitTreeRole User es4 (default ∅ (De !! GitTreeRole))
           (sync_edges GitTree License es3 (default ∅ (De !! GitTree))
              (sync_edges SubDomainRole User es2 (default ∅ (De !! SubDomainRole))
                 (sync_edges DomainRole User es1 (default ∅ (De !! DomainRole))
                    (edges u8)))))).
  { rewrite Hec7, Hec6, Hec5, Hec4, Hec3, Hec2, Hec1.
    rewrite Hen5, Hen4, Hen3, Hen2, Hen1.
    by rewrite Hdn4, Hdn3, Hdn2, Hdn1, HDe. }
  assert (F1 : sync_edges DomainRole User es1 (default ∅ (De !! DomainRole))
                 (edges wf) = edges wf).
  { rewrite HEd. repeat (apply sync_edges_other; [done|]). apply sync_edges_idemp. }
  assert (F2 : sync_edges SubDomainRole User es2 (default ∅ (De !! SubDomainRole))
                 (edges wf) = edges wf).
  { rewrite HEd. repeat (apply sync_edges_other; [done|]). apply sync_edges_idemp. }
  assert (F3 : sync_edges GitTree License es3 (default ∅ (De !! GitTree))
                 (edges wf) = edges wf).
  { rewrite HEd. repeat (apply sync_edges_other; [done|]). apply sync_edges_idemp. }
  assert (F4 : sync_edges GitTreeRole User es4 (default ∅ (De !! GitTreeRole))
                 (edges wf) = edges wf).
  { rewrite HEd. repeat (apply sync_edges_other; [done|]). apply sync_edges_idemp. }
  assert (F5 : sync_edges UserParty User es5 (default ∅ (De !! UserParty))
                 (edges wf) = edges wf).
  { rewrite HEd. apply sync_edges_idemp. }
  (* the second run *)
  assert (Hrun2 : hoare (same_store (rows wf) (edges wf))
                    (load (loader := loader schema) p)
                    (λ _, same_store (rows wf) (edges wf))
                    (same_store (rows wf) (edges wf))).
  { unfold load.
    eapply hoare_bind; [apply quiet_get_default_loader|intros ?].
    eapply hoare_bind;
      [exact (quiet_sync_entity _ User ks1 _ _ _ K1 Q1)
      |intros ?; apply hoare_pure; intros _].
    eapply hoare_bind;
      [exact (quiet_sync_entity _ Domain ks2 _ _ _ K2 Q2)
      |intros ?; apply hoare_pure; intros ->].
    eapply hoare_bind;
      [exact (quiet_sync_entity _ SubDomain ks3 _ _ _ K3 Q3)
      |intros ?; apply hoare_pure; intros ->].
    eapply hoare_bind;
      [exact (quiet_sync_entity _ DomainRole ks4 _ _ _ K4 Q4)
      |intros ?; apply hoare_pure; intros ->].
    eapply hoare_bind;
      [exact (quiet_sync_entity _ SubDomainRole ks5 _ _ _ K5 Q5)
      |intros ?; apply hoare_pure; intros ->].
    eapply hoare_bind;
      [exact (quiet_sync_entity _ GitTree ks6 _ _ _ K6 Q6)
      |intros ?; apply hoare_pure; intros ->].
    eapply hoare_bind;
      [exact (quiet_sync_entity _ GitTreeRole ks7 _ _ _ K7 Q7)
      |intros ?; apply hoare_pure; intros ->].
    eapply hoare_bind;
      [exact (quiet_sync_entity _ UserParty ks8 _ _ _ K8 Q8)
      |intros ?; apply hoare_pure; intros ->].
    eapply hoare_bind; [exact (quiet_sync_nnr _ _ _ es1 _ _ _ P1 F1)|intros ?].
    eapply hoare_bind; [exact (quiet_sync_nnr _ _ _ es2 _ _ _ P2 F2)|intros ?].
    eapply hoare_bind; [exact (quiet_sync_nnr _ _ _ es3 _ _ _ P3 F3)|intros ?].
    eapply hoare_bind; [exact (quiet_sync_nnr _ _ _ es4 _ _ _ P4 F4)|intros ?].
    eapply hoare_bind; [exact (quiet_sync_nnr _ _ _ es5 _ _ _ P5 F5)|intros ?].
    eapply hoare_bind; [eapply (quiet_delete_rows UserParty ks8), L8|intros ?].
    eapply hoare_bind; [eapply (quiet_delete_rows GitTreeRole ks7), L7|intros ?].
    eapply hoare_bind; [eapply (quiet_delete_rows SubDomainRole ks5), L5|intros ?].
    eapply hoare_bind; [eapply (quiet_delete_rows DomainRole ks4), L4|intros ?].
    eapply hoare_bind; [eapply (quiet_delete_rows GitTree ks6), L6|intros ?].
    eapply hoare_bind; [eapply (quiet_delete_rows SubDomain ks3), L3|intros ?].
    eapply (hoare_weaken (at_store (rows wf) (edges wf) De) _
              (λ _, at_store (rows wf) (edges wf) De));
      [eapply (quiet_delete_rows Domain ks2), L2|done| |done].
    intros ? w (? & ? & ?). by split. }
  specialize (Hrun2 wf (conj eq_refl eq_refl)).
  unfold persisted. destruct (load p wf) as [w' [[]|e]]; simpl;
    destruct Hrun2 as [-> ->]; done.
Qed.

(** *** The rows of the users *)

Lemma overlay_is_Some kds k r : is_Some r → is_Some (overlay kds k r).
Proof.
  intros Hr. rewrite overlay_combined. by destruct (combined kds k).
Qed.

Lemma overlay_absent ks D k r :
  length ks = length D → k ∉ ks → overlay (zip ks D) k r = r.
Proof.
  intros Hlen Hk. rewrite overlay_combined.
  apply (combined_zip_None _ D) in Hk; [|done]. by rewrite Hk.
Qed.

Lemma map_result_elem_of {A B} (f : A → result B) l ys y :
  map_result f l = Ok ys → y ∈ ys → ∃ x, x ∈ l ∧ f x = Ok y.
Proof.
  revert ys. induction l as [|x l IH]; intros ys; simpl.
  - intros [= <-] Hy. by apply elem_of_nil in Hy.
  - destruct (f x) as [y'|] eqn:Hx; simpl; [|done].
    destruct (map_result f l) as [ys'|]; simpl; [|done].
    intros [= <-] [->|Hy]%elem_of_cons.
    + exists x. split; [left|done].
    + destruct (IH _ eq_refl Hy) as (x' & Hin & Hx'). exists x'.
      split; [by right|done].
Qed.

(** A property [φ] of the row of user [k] that syncing the users [D]
    keeps. *)
Definition kept (φ : option Entity → Prop) (k : Key) (D : list Entity) : Prop :=
  ∀ ks r, map_result (natural_key schema User) D = Ok ks → φ r →
          φ (overlay (zip ks D) k r).

Definition user_row (φ : option Entity → Prop) (k : Key) (w : World) : Prop :=
  φ (rows w !! (User, k)).

Lemma keep_get_default_loader φ k :
  hoare (user_row φ k) get_default_loader (λ _, user_row φ k) (user_row φ k).
Proof. by intros w Hw. Qed.

Lemma keep_sync_users φ k D :
  kept φ k D →
  hoare (user_row φ k) (sync_entity schema D User)
    (λ _, user_row φ k) (user_row φ k).
Proof.
  intros Hkept w Hw.
  destruct (sync_entity schema D User w) as [w' [del|e]] eqn:Hs.
  - apply sync_entity_Ok in Hs as (ks & Hks & Hr & _).
    unfold user_row. rewrite Hr, lookup_upsert_all_eq. by apply Hkept.
  - by apply sync_entity_Raise in Hs as ->.
Qed.

(** The sync of another table keeps the rows of the users, and so does
    the closure it returns. *)
Lemma keep_sync_entity φ k D T :
  T ≠ User →
  hoare (user_row φ k) (sync_entity schema D T)
    (λ del w, user_row φ k w ∧
              hoare (user_row φ k) del (λ _, user_row φ k) (user_row φ k))
    (user_row φ k).
Proof.
  intros HT w Hw.
  destruct (sync_entity schema D T w) as [w' [del|e]] eqn:Hs.
  - apply sync_entity_Ok in Hs as (ks & Hks & Hr & _ & _ & ->).
    unfold user_row. split.
    + rewrite Hr, lookup_upsert_all_ne; done.
    + intros w2 Hw2. simpl. unfold user_row. simpl.
      rewrite lookup_delete_all_ne; done.
  - by apply sync_entity_Raise in Hs as ->.
Qed.

Lemma keep_sync_nnr φ k pairs A B :
  hoare (user_row φ k) (sync_nnr schema pairs A B)
    (λ _, user_row φ k) (user_row φ k).
Proof.
  intros w Hw.
  destruct (sync_nnr schema pairs A B w) as [w' [[]|e]] eqn:Hs.
  - apply sync_nnr_Ok in Hs as (es & _ & Hr & _). unfold user_row. by rewrite Hr.
  - by apply sync_nnr_Raise in Hs as ->.
Qed.

(** The load phase keeps every property of a user's row that the sync of
    the users keeps: no later call touches the rows of the users. *)
Lemma load_keeps_user_row φ k p :
  kept φ k (plan_users p) →
  hoare (user_row φ k) (load (loader := loader schema) p)
    (λ _, user_row φ k) (user_row φ k).
Proof.
  intros Hkept. unfold load.
  eapply hoare_bind; [apply keep_get_default_loader|intros ?].
  eapply hoare_bind; [by apply keep_sync_users|intros ?].
  eapply hoare_bind;
    [by apply keep_sync_entity|intros d1; apply hoare_pure; intros H1].
  eapply hoare_bind;
    [by apply keep_sync_entity|intros d2; apply hoare_pure; intros H2].
  eapply hoare_bind;
    [by apply keep_sync_entity|intros d3; apply hoare_pure; intros H3].
  eapply hoare_bind;
    [by apply keep_sync_entity|intros d4; apply hoare_pure; intros H4].
  eapply hoare_bind;
    [by apply keep_sync_entity|intros d5; apply hoare_pure; intros H5].
  eapply hoare_bind;
    [by apply keep_sync_entity|intros d6; apply hoare_pure; intros H6].
  eapply hoare_bind;
    [by apply keep_sync_entity|intros d7; apply hoare_pure; intros H7].
  do 5 (eapply hoare_bind; [apply keep_sync_nnr|intros ?]).
  eapply hoare_bind; [exact H7|intros ?].
  eapply hoare_bind; [exact H6|intros ?].
  eapply hoare_bind; [exact H4|intros ?].
  eapply hoare_bind; [exact H3|intros ?].
  eapply hoare_bind; [exact H5|intros ?].
  eapply hoare_bind; [exact H2|intros ?].
  exact H1.
Qed.

End facts.

End EngineFacts.

(** ** Idempotence of the import *)

(** C1: when a run of from_unicode returns, a second run on the same two
    texts leaves the persisted store, rows and relation edges, equal to
    what the first run left: the second pass inserts nothing, changes no
    row and deletes nothing. *)
Theorem from_unicode_idempotent {imports : Imports} {UC : Type}
    {cache : UserCacheOps UC} (schema : Engine.Schema)
    (domain_str gittree_str : string) (w0 : Engine.World) :
  (from_unicode (UC := UC) (loader := Engine.loader schema)
     domain_str gittree_str w0).2 = Ok tt →
  Engine.persisted
    (from_unicode (UC := UC) (loader := Engine.loader schema)
       domain_str gittree_str
       (from_unicode (UC := UC) (loader := Engine.loader schema)
          domain_str gittree_str w0).1).1
  = Engine.persisted
      (from_unicode (UC := UC) (loader := Engine.loader schema)
         domain_str gittree_str w0).1.
Proof.
  destruct (from_unicode (UC := UC) (loader := Engine.loader schema)
              domain_str gittree_str w0) as [w1 r] eqn:Hrun.
  simpl. intros ->. revert Hrun. rewrite !from_unicode_phases.
  destruct (extract domain_str gittree_str) as [p|e]; [|done].
  apply EngineFacts.load_idempotent.
Qed.

(** The import of the sample texts into the sample store returns, and a
    second import leaves the store as the first one left it. *)
Lemma from_unicode_idempotent_sample :
  (from_unicode (imports := Sample.imports) (UC := IdentityCache.UserCache)
     (loader := Engine.loader Sample.schema)
     Sample.domain_text Sample.tree_text Sample.world).2 = Ok tt ∧
  Engine.persisted
    (from_unicode (imports := Sample.imports) (UC := IdentityCache.UserCache)
       (loader := Engine.loader Sample.schema)
       Sample.domain_text Sample.tree_text
       (from_unicode (imports := Sample.imports) (UC := IdentityCache.UserCache)
          (loader := Engine.loader Sample.schema)
          Sample.domain_text Sample.tree_text Sample.world).1).1
  = Engine.persisted
      (from_unicode (imports := Sample.imports) (UC := IdentityCache.UserCache)
         (loader := Engine.loader Sample.schema)
         Sample.domain_text Sample.tree_text Sample.world).1.
Proof.
  assert (H : (from_unicode (imports := Sample.imports)
                 (UC := IdentityCache.UserCache)
                 (loader := Engine.loader Sample.schema)
                 Sample.domain_text Sample.tree_text Sample.world).2 = Ok tt)
    by (vm_compute; reflexivity).
  split; [exact H|].
  exact (from_unicode_idempotent Sample.schema _ _ _ H).
Defined.

(** ** The rows of the users are never deleted *)

(** C8: from_unicode drops the deletion closure of the users.  Whatever
    the loader, the closure of User is never run, while a run that returns
    has run the closures of the seven other tables.  On the engine, a
    persisted user therefore survives the run, however it ends; and a
    persisted user whose key is not among the users of the input keeps its
    row unchanged. *)
Theorem from_unicode_keeps_users {imports : Imports} {UC : Type}
    {cache : UserCacheOps UC} {W : Type} {inner : Loader W}
    (schema : Engine.Schema) (domain_str gittree_str : string)
    (w : W) (store : Engine.World) :
  let traced := from_unicode (UC := UC) (loader := Traced.loader)
                  domain_str gittree_str (w, []) in
  let run := from_unicode (UC := UC) (loader := Engine.loader schema)
               domain_str gittree_str store in
  (EvDelete User ∉ traced.1.2) ∧
  (traced.2 = Ok tt →
   ∀ T, T ∈ [Domain; SubDomain; DomainRole; SubDomainRole; GitTree;
             GitTreeRole; UserParty] → EvDelete T ∈ traced.1.2) ∧
  (∀ k row, Engine.rows store !! (User, k) = Some row →
     is_Some (Engine.rows run.1 !! (User, k)) ∧
     (∀ p, extract (UC := UC) domain_str gittree_str = Ok p →
        Forall (λ user, Engine.natural_key schema User user ≠ Ok k)
          (plan_users p) →
        Engine.rows run.1 !! (User, k) = Some row)).
Proof.
  intros traced run.
  destruct (from_unicode_logged (UC := UC) domain_str gittree_str w)
    as [[n Hn] Hall].
  fold traced in Hn, Hall. split_and!.
  - rewrite Hn. intros Hin%subseteq_take.
    unfold calls, sync_calls, delete_calls in Hin. simpl in Hin.
    repeat (apply elem_of_cons in Hin as [?|Hin]; [discriminate|]).
    by apply elem_of_nil in Hin.
  - intros Hok T HT. rewrite (Hall Hok).
    unfold calls, sync_calls, delete_calls. simpl.
    repeat (apply elem_of_cons in HT as [->|HT];
            [repeat first [left | right]|]).
    by apply elem_of_nil in HT.
  - intros k row Hrow. unfold run. rewrite from_unicode_phases.
    destruct (extract domain_str gittree_str) as [p|e]; simpl;
      [|split; [by rewrite Hrow | discriminate]].
    split.
    + assert (Hkeep : EngineFacts.kept schema is_Some k (plan_users p)).
      { intros ks r _. apply EngineFacts.overlay_is_Some. }
      pose proof (EngineFacts.load_keeps_user_row schema is_Some k p Hkeep store)
        as Hload.
      unfold EngineFacts.user_row in Hload. rewrite Hrow in Hload.
      specialize (Hload (mk_is_Some _ _ eq_refl)).
      by destruct (load p store) as [w' [[]|e]].
    + intros p' [= <-] Habsent.
      assert (Hkeep : EngineFacts.kept schema (λ r, r = Some row) k (plan_users p)).
      { intros ks r Hks ->. apply EngineFacts.overlay_absent.
        - by eapply map_result_length.
        - intros Hk.
          destruct (EngineFacts.map_result_elem_of _ _ _ _ Hks Hk)
            as (user & Hin & Hkey).
          rewrite Forall_forall in Habsent. by apply (Habsent user). }
      pose proof (EngineFacts.load_keeps_user_row schema _ k p Hkeep store Hrow)
        as Hload.
      unfold EngineFacts.user_row in Hload.
      by destruct (load p store) as [w' [[]|e]].
Qed.

(** On the sample store, the import deletes the domain that the texts no
    longer mention and keeps the user that they no longer mention. *)
Example from_unicode_keeps_ghost_user :
  let run := from_unicode (imports := Sample.imports)
               (UC := IdentityCache.UserCache)
               (loader := Engine.loader Sample.schema)
               Sample.domain_text Sample.tree_text Sample.world in
  run.2 = Ok tt ∧
  Engine.rows Sample.world !! (Domain, ["Legacy"]) = Some {[ "name" := "Legacy" ]} ∧
  Engine.rows run.1 !! (Domain, ["Legacy"]) = None ∧
  Engine.rows run.1 !! (User, ["ghost@tizen.org"])
  = Engine.rows Sample.world !! (User, ["ghost@tizen.org"]) ∧
  is_Some (Engine.rows Sample.world !! (User, ["ghost@tizen.org"])).
Proof. vm_compute. split_and!; try reflexivity. by eexists. Qed.

(** * Part III: further properties of scm.py *)

(** ** parse_name, rolename, subrolename *)

Lemma contains_cons_char c x s :
  contains (String c "") (String x s) = false →
  x ≠ c ∧ contains (String c "") s = false.
Proof.
  unfold contains. intros H%bool_decide_eq_false.
  rewrite partition_at_unfold in H. simpl in H.
  destruct (decide (c = x)) as [->|Hne].
  - destruct H. by destruct s.
  - split; [congruence|]. apply bool_decide_eq_false. intros [[a b] Hs].
    destruct H. rewrite Hs. eauto.
Qed.

(** Splitting at a one-character separator finds its first occurrence. *)
Lemma partition_at_first_char c a b :
  contains (String c "") a = false →
  partition_at (String c "") (a +:+ String c b) = Some (a, b).
Proof.
  induction a as [|x a IH]; intros Hc.
  - change ("" +:+ String c b) with (String c b).
    rewrite partition_at_unfold. simpl. rewrite decide_True by done.
    by destruct b.
  - apply contains_cons_char in Hc as [Hx Hc].
    change (String x a +:+ String c b) with (String x (a +:+ String c b)).
    rewrite partition_at_unfold. simpl.
    rewrite decide_False by congruence. by rewrite (IH Hc).
Qed.

(** X1: a name with a "/" is split at the first "/", and both parts are
    stripped; further "/" stay in the subdomain name, and no part is
    replaced by Uncategorized, an empty one included. *)
Theorem parse_name_splits_at_first_slash (dname rest : string) :
  contains "/" dname = false →
  parse_name (dname +:+ "/" +:+ rest) = (strip dname, strip rest).
Proof.
  intros Hc. unfold parse_name, split1.
  change ("/" +:+ rest) with (String "/"%char rest).
  by rewrite (partition_at_first_char _ _ _ Hc).
Qed.

Lemma parse_name_splits_at_first_slash_sample :
  contains "/" " System " = false ∧
  parse_name (" System " +:+ "/" +:+ " Kernel / net ")
  = (strip " System ", strip " Kernel / net ").
Proof.
  split; [reflexivity|].
  apply (parse_name_splits_at_first_slash " System " " Kernel / net ").
  reflexivity.
Defined.

Lemma string_app_assoc (a b c : string) : (a +:+ b) +:+ c = a +:+ (b +:+ c).
Proof.
  induction a as [|x a IH]; [done|].
  change (String x ((a +:+ b) +:+ c) = String x (a +:+ b +:+ c)). by f_equal.
Qed.

(** X2: for one role, rolename tells names apart and subrolename tells
    the subdomains of one domain apart; but subrolename joins the domain
    and the subdomain with a "-", so that two subdomains of different
    domains get the same role name when the "-" can be read in two
    places. *)
Theorem subrolename_is_ambiguous :
  (∀ role name1 name2,
     rolename role name1 = rolename role name2 → name1 = name2) ∧
  (∀ role dname sname1 sname2,
     subrolename role dname sname1 = subrolename role dname sname2 →
     sname1 = sname2) ∧
  (∀ role a b c,
     subrolename role (a +:+ "-" +:+ b) c = subrolename role a (b +:+ "-" +:+ c)).
Proof.
  split_and!.
  - intros role n1 n2. unfold rolename. intros H.
    by repeat apply String.app_inj in H.
  - intros role d s1 s2. unfold subrolename. intros H.
    by repeat apply String.app_inj in H.
  - intros role a b c. unfold subrolename.
    by rewrite !string_app_assoc.
Qed.

(** ** transform_domains *)

Section domains_more.
Context {imports : Imports} {UC : Type} {cache : UserCacheOps UC}.

Lemma domain_block_counts (uc : UC) data :
  length (domains (domain_block_rows uc data))
  = (if has_key "DOMAIN" data "PARENT" then 0 else 1) ∧
  length (subdomains (domain_block_rows uc data))
  = (if has_key "DOMAIN" data "PARENT" then 1 else 0).
Proof.
  unfold domain_block_rows. destruct (has_key "DOMAIN" data "PARENT"); [|done].
  by destruct (parse_name (marker_value data)).
Qed.

Lemma domain_rows_counts (uc : UC) domains_data :
  length (domains (domain_rows uc domains_data))
  = length (filter (λ data, has_key "DOMAIN" data "PARENT" = false) domains_data) ∧
  length (subdomains (domain_rows uc domains_data))
  + length (domains (domain_rows uc domains_data)) = length domains_data.
Proof.
  simpl. induction domains_data as [|data ds [IH1 IH2]]; [done|].
  rewrite !bind_cons, !length_app, filter_cons.
  destruct (domain_block_counts uc data) as [-> ->].
  destruct (has_key "DOMAIN" data "PARENT") eqn:Hp.
  - rewrite decide_False by done. simpl. split; [done|]. lia.
  - rewrite decide_True by done. simpl. split; [by f_equal|]. lia.
Qed.

(** X3: transform_domains returns one domain for the Uncategorized domain
    and one for each block without PARENT, in all; and one subdomain for
    each block with PARENT and one Uncategorized subdomain for each domain:
    one more subdomain than there are blocks.  Nothing is merged: a name
    met twice is returned twice. *)
Theorem transform_domains_counts (domains_data : list Block) (uc : UC) :
  ∃ t, transform_domains domains_data uc = Ok t ∧
    length (domains t)
    = S (length (filter (λ data, has_key "DOMAIN" data "PARENT" = false)
                   domains_data)) ∧
    length (subdomains t) = S (length domains_data).
Proof.
  eexists. split; [apply transform_domains_rows|]. simpl.
  destruct (domain_rows_counts uc domains_data) as [H1 H2]. simpl in H1, H2.
  split; [by f_equal|].
  rewrite length_app. simpl. rewrite length_fmap. lia.
Qed.

(** The block with the values of its PARENT field, if it has one, replaced
    by [values]. *)
Definition with_parent (values : list string) (data : Block) : Block :=
  {| marker_value := marker_value data;
     fields := alter (λ _, values) "PARENT" (fields data) |}.

Lemma with_parent_has_key values data key :
  has_key "DOMAIN" (with_parent values data) key = has_key "DOMAIN" data key.
Proof.
  unfold has_key, with_parent. simpl. f_equal.
  apply bool_decide_ext. rewrite lookup_alter. case_decide; [|done].
  subst key. by rewrite fmap_is_Some.
Qed.

Lemma with_parent_role_keys values data :
  role_keys "DOMAIN" (with_parent values data) = role_keys "DOMAIN" data.
Proof.
  unfold role_keys, role_set, key_set, with_parent. simpl.
  by rewrite dom_alter_L.
Qed.

Lemma with_parent_iter_item values data role :
  role ≠ "PARENT" →
  iter_item "DOMAIN" (with_parent values data) role = iter_item "DOMAIN" data role.
Proof.
  intros Hne. unfold iter_item, with_parent. simpl.
  case_decide; [done|]. by rewrite lookup_alter_ne.
Qed.

Lemma elem_of_role_keys marker data role :
  role ∈ role_keys marker data → role ∈ ROLES.
Proof.
  unfold role_keys, role_set. rewrite iter_set_elements, elem_of_elements.
  by intros [? _]%elem_of_intersection.
Qed.

Lemma with_parent_block_rows (uc : UC) values data :
  "PARENT" ∉ ROLES →
  domain_block_rows uc (with_parent values data) = domain_block_rows uc data.
Proof.
  intros Hp. unfold domain_block_rows.
  rewrite with_parent_has_key, with_parent_role_keys.
  assert (Hroles : ∀ role, role ∈ role_keys "DOMAIN" data →
            iter_item "DOMAIN" (with_parent values data) role
            = iter_item "DOMAIN" data role).
  { intros role Hin%elem_of_role_keys. apply with_parent_iter_item.
    intros ->. done. }
  change (marker_value (with_parent values data)) with (marker_value data).
  destruct (has_key "DOMAIN" data "PARENT").
  - destruct (parse_name (marker_value data)) as [dname sname]. f_equal.
    apply Forall_bind_ext, Forall_forall. intros role Hin.
    by rewrite Hroles.
  - f_equal. apply Forall_bind_ext, Forall_forall. intros role Hin.
    by rewrite Hroles.
Qed.

(** X4: transform_domains reads of the PARENT field only whether it is
    there: the parent's name is not used, the domain of a subdomain block
    comes from its DOMAIN value alone.  Replacing the values of every
    PARENT field leaves the result unchanged (PARENT not being a role). *)
Theorem transform_domains_ignores_parent_name (values : list string)
    (domains_data : list Block) (uc : UC) :
  "PARENT" ∉ ROLES →
  transform_domains (with_parent values <$> domains_data) uc
  = transform_domains domains_data uc.
Proof.
  intros Hp. rewrite !transform_domains_rows.
  assert (Hrows : domain_rows uc (with_parent values <$> domains_data)
                  = domain_rows uc domains_data).
  { unfold domain_rows. rewrite !list_fmap_bind.
    f_equal; apply list_bind_ext; try done; intros data; simpl;
      by rewrite with_parent_block_rows. }
  by rewrite Hrows.
Qed.

(** X5: every pair transform_domains returns refers to a role it
    returns: the key of a pair in domainrole_users, completed with its
    name, is a row of domainroles, likewise for the subdomain roles; and
    the user of a pair is a non-empty record that the cache returned for a
    value of the input. *)
Theorem transform_domains_pairs_have_roles (domains_data : list Block) (uc : UC) :
  ∃ t, transform_domains domains_data uc = Ok t ∧
    (∀ key user, (key, user) ∈ domainrole_users t →
       (∃ name role,
          key = {[ "role" := role; "domain__name" := name ]} ∧
          <["name" := rolename role name]> key ∈ domainroles t) ∧
       user ≠ ∅ ∧ ∃ ustring, UserCache_get uc ustring = Some user) ∧
    (∀ key user, (key, user) ∈ subdomainrole_users t →
       (∃ dname sname role,
          key = {[ "role" := role; "subdomain__name" := sname;
                   "subdomain__domain__name" := dname ]} ∧
          <["name" := subrolename role dname sname]> key ∈ subdomainroles t) ∧
       user ≠ ∅ ∧ ∃ ustring, UserCache_get uc ustring = Some user).
Proof.
  eexists. split; [apply transform_domains_rows|]. simpl.
  assert (Hpair : ∀ key key' user l,
    (key', user) ∈ role_pairs uc key l →
    key' = key ∧ user ≠ ∅ ∧ ∃ ustring, UserCache_get uc ustring = Some user).
  { intros key key' user l (ustring & _ & Hu)%list_elem_of_omap.
    destruct (UserCache_get uc ustring) as [u|] eqn:Hget; [|done].
    unfold truthy in Hu. case_bool_decide; [|done].
    injection Hu as <- <-. eauto. }
  split.
  - intros key user (data & Hin & Hdata)%list_elem_of_bind.
    unfold domain_block_rows in Hin.
    destruct (has_key "DOMAIN" data "PARENT") eqn:Hp.
    { destruct (parse_name (marker_value data)). by apply elem_of_nil in Hin. }
    simpl in Hin. apply list_elem_of_bind in Hin as (role & Hin & Hrole).
    apply Hpair in Hin as (-> & Hne & Hget). split; [|done].
    exists (marker_value data), role. split; [done|].
    apply list_elem_of_bind. exists data. split; [|done].
    unfold domain_block_rows. rewrite Hp. simpl.
    by apply (list_elem_of_fmap_2 (domainrole_row (marker_value data))).
  - intros key user (data & Hin & Hdata)%list_elem_of_bind.
    unfold domain_block_rows in Hin.
    destruct (has_key "DOMAIN" data "PARENT") eqn:Hp;
      [|by apply elem_of_nil in Hin].
    destruct (parse_name (marker_value data)) as [dname sname] eqn:Hn.
    simpl in Hin. apply list_elem_of_bind in Hin as (role & Hin & Hrole).
    apply Hpair in Hin as (-> & Hne & Hget). split; [|done].
    exists dname, sname, role. split; [done|].
    apply list_elem_of_bind. exists data. split; [|done].
    unfold domain_block_rows. rewrite Hp, Hn. simpl.
    by apply (list_elem_of_fmap_2 (subdomainrole_row dname sname)).
Qed.

End domains_more.

Lemma transform_domains_ignores_parent_name_sample :
  ("PARENT" ∉ ROLES (imports := Sample.imports)) ∧
  transform_domains (imports := Sample.imports)
    (with_parent ["Platform"] <$>
       [ {| marker_value := "System / Kernel";
            fields := {[ "PARENT" := ["System"];
                         "REVIEWER" := ["Alice <alice@intel.com>"] ]} |} ])
    IdentityCache.new
  = transform_domains (imports := Sample.imports)
      [ {| marker_value := "System / Kernel";
           fields := {[ "PARENT" := ["System"];
                        "REVIEWER" := ["Alice <alice@intel.com>"] ]} |} ]
      IdentityCache.new.
Proof.
  assert (H : "PARENT" ∉ ROLES (imports := Sample.imports)).
  { apply (bool_decide_unpack _). by vm_compute. }
  split; [exact H|].
  exact (transform_domains_ignores_parent_name (imports := Sample.imports)
           ["Platform"] _ IdentityCache.new H).
Defined.

(** ** transform_trees *)

Section trees_more.
Context {imports : Imports} {UC : Type} {cache : UserCacheOps UC}.

#[local] Instance domain_readable_dec data : Decision (domain_readable data).
Proof. unfold domain_readable. apply _. Defined.

Lemma transform_trees_unreadable (uc : UC) t trees_data :
  Exists (λ data, fields data !! "DOMAIN" = Some []) trees_data →
  for_each (transform_tree uc) t trees_data = Raise IndexError.
Proof.
  intros Hex. revert t. induction trees_data as [|data ds IH]; intros t.
  - inversion Hex.
  - simpl. destruct (decide (domain_readable data)) as [Hd|Hd].
    + rewrite transform_tree_rows by done. simpl. apply IH.
      apply Exists_cons in Hex as [Hex|Hex]; [|done]. by destruct Hd.
    + apply dec_stable in Hd. by rewrite transform_tree_unreadable.
Qed.

(** X6: transform_trees fails in one way only.  It returns when no block
    has an empty DOMAIN list, and raises IndexError, from the subscript
    [0], when one has; the unpacking of [name.split(' / ', 1)] never
    raises, and no other exception leaves the function. *)
Theorem transform_trees_raises_only_IndexError (trees_data : list Block) (uc : UC) :
  (Forall (λ data, fields data !! "DOMAIN" ≠ Some []) trees_data ∧
   ∃ t, transform_trees trees_data uc = Ok t) ∨
  (Exists (λ data, fields data !! "DOMAIN" = Some []) trees_data ∧
   transform_trees trees_data uc = Raise IndexError).
Proof.
  destruct (decide (Forall domain_readable trees_data)) as [Hd|Hd].
  - left. split; [done|]. eexists. by apply transform_trees_rows.
  - right. apply not_Forall_Exists in Hd; [|apply _].
    assert (Hex : Exists (λ data, fields data !! "DOMAIN" = Some []) trees_data).
    { eapply Exists_impl; [exact Hd|]. intros data Hn. simpl in Hn.
      by apply dec_stable in Hn. }
    split; [done|]. by apply transform_trees_unreadable.
Qed.

Lemma transform_trees_Ok_readable (uc : UC) trees_data t :
  transform_trees trees_data uc = Ok t → Forall domain_readable trees_data.
Proof.
  intros Hok. destruct (decide (Forall domain_readable trees_data)) as [|Hd];
    [done|].
  apply not_Forall_Exists in Hd; [|apply _].
  assert (Hex : Exists (λ data, fields data !! "DOMAIN" = Some []) trees_data).
  { eapply Exists_impl; [exact Hd|]. intros data Hn. simpl in Hn.
    by apply dec_stable in Hn. }
  unfold transform_trees in Hok.
  by rewrite (transform_trees_unreadable uc _ _ Hex) in Hok.
Qed.

Lemma tree_rows_gitpaths (uc : UC) trees_data :
  (λ row : Entity, row !! "gitpath") <$> trees (tree_rows uc trees_data)
  = (λ data, Some (marker_value data)) <$> trees_data.
Proof.
  cbn [trees tree_rows]. induction trees_data as [|data ds IH]; [done|].
  rewrite bind_cons, fmap_app, IH, fmap_cons. f_equal.
Qed.

(** X7: when transform_trees returns, it has made one tree for each
    block, in the order of the blocks, under the block's TREE PATH; a
    block without DOMAIN, or whose first DOMAIN value is empty, is placed
    in the subdomain Uncategorized of the domain Uncategorized; and each
    value of a LICENSES field gives one pair, a block without LICENSES
    giving none. *)
Theorem transform_trees_one_tree_per_block (trees_data : list Block) (uc : UC)
    (t : TreeTables) :
  transform_trees trees_data uc = Ok t →
  (λ row : Entity, row !! "gitpath") <$> trees t
  = (λ data, Some (marker_value data)) <$> trees_data ∧
  (∀ data, data ∈ trees_data →
     fields data !! "DOMAIN" = None ∨
     (∃ others, fields data !! "DOMAIN" = Some ("" :: others)) →
     ({[ "gitpath" := marker_value data;
         "subdomain__name" := NONAME;
         "subdomain__domain__name" := NONAME ]} : Entity) ∈ trees t) ∧
  tree_licenses t
  = (trees_data ≫= λ data,
       (λ licen, (({[ "gitpath" := marker_value data ]} : Entity),
                  ({[ "shortname" := licen ]} : Entity)))
         <$> default [] (fields data !! "LICENSES")).
Proof.
  intros Hok. pose proof (transform_trees_Ok_readable _ _ _ Hok) as Hd.
  rewrite (transform_trees_rows _ _ Hd) in Hok. injection Hok as <-.
  split_and!.
  - apply tree_rows_gitpaths.
  - intros data Hin Hdom. cbn [trees tree_rows]. apply list_elem_of_bind. exists data.
    split; [|done].
    assert (Hs : tree_subdomain data = (NONAME, NONAME)).
    { unfold tree_subdomain.
      destruct Hdom as [H|[others H]]; rewrite H; reflexivity. }
    unfold tree_block_rows. cbn [trees]. rewrite Hs.
    apply list_elem_of_singleton. reflexivity.
  - done.
Qed.

End trees_more.

Lemma transform_trees_one_tree_per_block_sample :
  transform_trees (imports := Sample.imports) (UC := IdentityCache.UserCache)
    [ {| marker_value := "platform/kernel/linux";
         fields := {[ "LICENSES" := ["GPL-2.0"; "MIT"] ]} |} ]
    IdentityCache.new
  = Ok {| trees := [ {[ "gitpath" := "platform/kernel/linux";
                        "subdomain__name" := NONAME;
                        "subdomain__domain__name" := NONAME ]} ];
          tree_licenses :=
            [ ({[ "gitpath" := "platform/kernel/linux" ]},
               {[ "shortname" := "GPL-2.0" ]});
              ({[ "gitpath" := "platform/kernel/linux" ]},
               {[ "shortname" := "MIT" ]}) ];
          treeroles := []; treerole_users := [] |} ∧
  tree_licenses
    {| trees := [ {[ "gitpath" := "platform/kernel/linux";
                     "subdomain__name" := NONAME;
                     "subdomain__domain__name" := NONAME ]} ];
       tree_licenses :=
         [ ({[ "gitpath" := "platform/kernel/linux" ]},
            {[ "shortname" := "GPL-2.0" ]});
           ({[ "gitpath" := "platform/kernel/linux" ]},
            {[ "shortname" := "MIT" ]}) ];
       treeroles := []; treerole_users := [] |}
  = [ ({[ "gitpath" := "platform/kernel/linux" ]}, {[ "shortname" := "GPL-2.0" ]});
      ({[ "gitpath" := "platform/kernel/linux" ]}, {[ "shortname" := "MIT" ]}) ].
Proof.
  assert (H : transform_trees (imports := Sample.imports)
                (UC := IdentityCache.UserCache)
                [ {| marker_value := "platform/kernel/linux";
                     fields := {[ "LICENSES" := ["GPL-2.0"; "MIT"] ]} |} ]
                IdentityCache.new
              = Ok {| trees := [ {[ "gitpath" := "platform/kernel/linux";
                                    "subdomain__name" := NONAME;
                                    "subdomain__domain__name" := NONAME ]} ];
                      tree_licenses :=
                        [ ({[ "gitpath" := "platform/kernel/linux" ]},
                           {[ "shortname" := "GPL-2.0" ]});
                          ({[ "gitpath" := "platform/kernel/linux" ]},
                           {[ "shortname" := "MIT" ]}) ];
                      treeroles := []; treerole_users := [] |})
    by (vm_compute; reflexivity).
  split; [exact H|].
  exact (proj2 (proj2 (transform_trees_one_tree_per_block
                         (imports := Sample.imports) _ _ _ H))).
Defined.

(** ** The names of a subdomain in the two texts *)

Lemma rev_app_app (a b c : string) :
  String.rev_app (a +:+ b) c = String.rev_app b (String.rev_app a c).
Proof.
  revert c. induction a as [|x a IH]; intros c; [done|].
  change (String x a +:+ b) with (String x (a +:+ b)). simpl. apply IH.
Qed.

Lemma rstrip_app_space (s : string) : rstrip (s +:+ " ") = rstrip s.
Proof.
  unfold rstrip, String.rev. by rewrite rev_app_app.
Qed.

Lemma lstrip_app_space (s : string) :
  lstrip (s +:+ " ") = if decide (lstrip s = "") then "" else lstrip s +:+ " ".
Proof.
  induction s as [|x s IH]; [done|].
  change (String x s +:+ " ") with (String x (s +:+ " ")). simpl.
  destruct (is_space x); [done|]. by rewrite decide_False.
Qed.

Lemma strip_app_space (s : string) : strip (s +:+ " ") = strip s.
Proof.
  unfold strip. rewrite lstrip_app_space.
  case_decide as Hs; [by rewrite Hs|]. apply rstrip_app_space.
Qed.

Lemma contains_char_cons c x s :
  x ≠ c → contains (String c "") s = false →
  contains (String c "") (String x s) = false.
Proof.
  unfold contains. intros Hx Hs%bool_decide_eq_false.
  apply bool_decide_eq_false. rewrite partition_at_unfold. simpl.
  rewrite decide_False by congruence.
  destruct (partition_at (String c "") s) as [[a b]|]; [|by intros [? ?]].
  destruct Hs. eauto.
Qed.

Lemma contains_char_app_space c s :
  c ≠ " "%char → contains (String c "") s = false →
  contains (String c "") (s +:+ " ") = false.
Proof.
  intros Hc. induction s as [|x s IH]; intros Hs.
  - apply contains_char_cons; [congruence|done].
  - apply contains_cons_char in Hs as [Hx Hs].
    change (String x s +:+ " ") with (String x (s +:+ " ")).
    apply contains_char_cons; auto.
Qed.

(** With no "/" before it, the first " / " of a text is found where it
    stands. *)
Lemma partition_at_first_slash (a b : string) :
  contains "/" a = false →
  partition_at " / " (a +:+ " / " +:+ b) = Some (a, b).
Proof.
  induction a as [|x a IH]; intros Hc.
  - change ("" +:+ " / " +:+ b) with (" / " +:+ b).
    rewrite partition_at_unfold, startswith_app. simpl. by destruct b.
  - apply contains_cons_char in Hc as [Hx Hc].
    change (String x a +:+ " / " +:+ b) with (String x (a +:+ " / " +:+ b)).
    rewrite partition_at_unfold.
    assert (Hs : startswith " / " (String x (a +:+ " / " +:+ b)) = false).
    { simpl. case_decide; [|done]. subst x.
      destruct a as [|y a]; simpl; [done|].
      apply contains_cons_char in Hc as [Hy _].
      rewrite decide_False; [done|congruence]. }
    by rewrite Hs, (IH Hc).
Qed.

Section subdomain_names.
Context {imports : Imports} {UC : Type} {cache : UserCacheOps UC}.

(** X8: a tree whose first DOMAIN value is [dname / sname], with " / "
    between the names and no "/" in [dname], is placed in the subdomain
    [sname] of the domain [dname], as written, while parse_name, which
    the domain text goes through, reads the same value as the two names
    stripped. *)
Theorem transform_trees_reads_subdomain (trees_data : list Block) (uc : UC)
    (t : TreeTables) (data : Block) (dname sname : string) (others : list string) :
  transform_trees trees_data uc = Ok t →
  data ∈ trees_data →
  fields data !! "DOMAIN" = Some ((dname +:+ " / " +:+ sname) :: others) →
  contains "/" dname = false →
  ({[ "gitpath" := marker_value data;
      "subdomain__name" := sname;
      "subdomain__domain__name" := dname ]} : Entity) ∈ trees t ∧
  parse_name (dname +:+ " / " +:+ sname) = (strip dname, strip sname).
Proof.
  intros Hok Hin Hdom Hc. split.
  - pose proof (transform_trees_Ok_readable _ _ _ Hok) as Hd.
    rewrite (transform_trees_rows _ _ Hd) in Hok. injection Hok as <-.
    cbn [trees tree_rows]. apply list_elem_of_bind. exists data.
    split; [|done].
    assert (Hs : tree_subdomain data = (dname, sname)).
    { unfold tree_subdomain. rewrite Hdom.
      assert (Hne : dname +:+ " / " +:+ sname ≠ "") by by destruct dname.
      rewrite bool_decide_true by done.
      assert (Hcont : contains " / " (dname +:+ " / " +:+ sname) = true).
      { unfold contains. apply bool_decide_eq_true, partition_at_app. }
      rewrite Hcont. simpl. unfold split1.
      by rewrite (partition_at_first_slash _ _ Hc). }
    unfold tree_block_rows. cbn [trees]. rewrite Hs.
    apply list_elem_of_singleton. reflexivity.
  - unfold parse_name, split1.
    change (dname +:+ " / " +:+ sname)
      with (dname +:+ " " +:+ String "/"%char (String " "%char sname)).
    rewrite <- string_app_assoc.
    rewrite (partition_at_first_char "/"%char (dname +:+ " ")
               (String " "%char sname)).
    + simpl. by rewrite strip_app_space.
    + by apply contains_char_app_space.
Qed.

End subdomain_names.

Lemma transform_trees_reads_subdomain_sample :
  (transform_trees (imports := Sample.imports) (UC := IdentityCache.UserCache)
     [ {| marker_value := "platform/kernel/linux";
          fields := {[ "DOMAIN" := ["System / Kernel"] ]} |} ]
     IdentityCache.new
   = Ok {| trees := [ {[ "gitpath" := "platform/kernel/linux";
                         "subdomain__name" := "Kernel";
                         "subdomain__domain__name" := "System" ]} ];
           tree_licenses := []; treeroles := []; treerole_users := [] |} ∧
   contains "/" "System" = false) ∧
  parse_name ("System" +:+ " / " +:+ "Kernel") = (strip "System", strip "Kernel").
Proof.
  assert (H : transform_trees (imports := Sample.imports)
                (UC := IdentityCache.UserCache)
                [ {| marker_value := "platform/kernel/linux";
                     fields := {[ "DOMAIN" := ["System / Kernel"] ]} |} ]
                IdentityCache.new
              = Ok {| trees := [ {[ "gitpath" := "platform/kernel/linux";
                                    "subdomain__name" := "Kernel";
                                    "subdomain__domain__name" := "System" ]} ];
                      tree_licenses := []; treeroles := [];
                      treerole_users := [] |})
    by (vm_compute; reflexivity).
  split; [split; [exact H|reflexivity]|].
  refine (proj2 (transform_trees_reads_subdomain (imports := Sample.imports)
                   _ _ _ {| marker_value := "platform/kernel/linux";
                            fields := {[ "DOMAIN" := ["System / Kernel"] ]} |}
                   "System" "Kernel" [] H _ _ _)).
  - left.
  - reflexivity.
  - reflexivity.
Defined.

(** ** transform_users and transform_parties *)

(** The record can be given a username: it has an email and no username
    yet. *)
Definition takes_username (i : Entity) : Prop :=
  is_Some (i !! "email") ∧ i !! "username" = None.

Lemma with_username_Ok i :
  takes_username i →
  with_username i = Ok (<["username" := default "" (i !! "email")]> i).
Proof.
  intros [[email He] Hu]. unfold with_username, getitem. rewrite He. simpl.
  rewrite bool_decide_false; [done|]. rewrite Hu. by intros [? ?].
Qed.

Lemma transform_users_loop acc good :
  Forall takes_username good →
  for_each (λ users i, u ← with_username i; Ok (users ++ [u])) acc good
  = Ok (acc ++ ((λ i, <["username" := default "" (i !! "email")]> i) <$> good)).
Proof.
  intros Hg. rewrite <- foldl_snoc. apply for_each_total.
  intros acc' i Hin. rewrite Forall_forall in Hg.
  by rewrite (with_username_Ok i (Hg _ Hin)).
Qed.

(** X9: transform_users returns when every cached record has an email and
    no username; each record then comes back, in order, with its email
    copied under "username" and its other fields as they were.  The first
    record without email raises KeyError, and the first one that already
    has a username raises TypeError, from the repeated keyword of
    [dict(username=..., **i)]. *)
Theorem transform_users_copies_email :
  (∀ ucusers, Forall takes_username ucusers →
     transform_users ucusers
     = Ok ((λ i, <["username" := default "" (i !! "email")]> i) <$> ucusers)) ∧
  (∀ good bad others, Forall takes_username good →
     bad !! "email" = None →
     transform_users (good ++ bad :: others) = Raise (KeyError "email")) ∧
  (∀ good bad others, Forall takes_username good →
     is_Some (bad !! "email") → is_Some (bad !! "username") →
     transform_users (good ++ bad :: others) = Raise TypeError).
Proof.
  split_and!.
  - intros ucusers Hg. unfold transform_users. by rewrite transform_users_loop.
  - intros good bad others Hg Hbad. unfold transform_users.
    rewrite for_each_app, transform_users_loop by done. simpl.
    unfold with_username, getitem. by rewrite Hbad.
  - intros good bad others Hg [email He] Hu. unfold transform_users.
    rewrite for_each_app, transform_users_loop by done. simpl.
    unfold with_username, getitem. rewrite He. simpl.
    by rewrite bool_decide_true.
Qed.

Lemma transform_users_Ok_inv ucusers users :
  transform_users ucusers = Ok users →
  Forall (λ user : Entity, ∃ email, user !! "email" = Some email ∧
                                    user !! "username" = Some email) users.
Proof.
  unfold transform_users.
  assert (Hgen : ∀ acc,
    Forall (λ user : Entity, ∃ email, user !! "email" = Some email ∧
                                      user !! "username" = Some email) acc →
    for_each (λ users i, u ← with_username i; Ok (users ++ [u])) acc ucusers
    = Ok users →
    Forall (λ user : Entity, ∃ email, user !! "email" = Some email ∧
                                      user !! "username" = Some email) users).
  { induction ucusers as [|i l IH]; intros acc Hacc; simpl.
    - by intros [= <-].
    - destruct (with_username i) as [u|] eqn:Hu; simpl; [|done].
      apply IH. apply Forall_app. split; [done|]. constructor; [|done].
      unfold with_username, getitem in Hu.
      destruct (i !! "email") as [email|] eqn:He; simpl in Hu; [|done].
      case_bool_decide; [done|]. injection Hu as <-. exists email.
      rewrite lookup_insert_ne by done. by rewrite lookup_insert_eq. }
  by apply Hgen.
Qed.

Section users_parties.
Context {imports : Imports}.

#[local] Instance email_has_at_dec user : Decision (email_has_at user).
Proof.
  unfold email_has_at. destruct (user !! "email") as [email|].
  - destruct (contains "@" email) eqn:Hc.
    + left. eauto.
    + right. intros (e & [= <-] & ?). congruence.
  - right. by intros (e & ? & ?).
Defined.

(** X10: the users that transform_users returns all have an email, equal
    to their username, so that transform_parties on them never raises
    KeyError: it returns, or raises IndexError for an email without "@". *)
Theorem transformed_users_reach_parties (ucusers users : list Entity) :
  transform_users ucusers = Ok users →
  Forall (λ user : Entity, ∃ email, user !! "email" = Some email ∧
                                    user !! "username" = Some email) users ∧
  ((∃ r, transform_parties users = Ok r) ∨
   transform_parties users = Raise IndexError).
Proof.
  intros Hok. pose proof (transform_users_Ok_inv _ _ Hok) as Hu.
  split; [done|].
  destruct (decide (Forall email_has_at users)) as [Hat|Hat].
  - left. unfold transform_parties. rewrite party_users_loop by done. eauto.
  - right. apply not_Forall_Exists in Hat; [|apply _].
    unfold transform_parties. rewrite party_users_loop_fails; [done| |].
    + eapply Forall_impl; [exact Hu|]. intros user (e & He & _). eauto.
    + apply Exists_exists in Hat as (user & Hin & Hn).
      apply Exists_exists. exists user. split; [done|].
      rewrite Forall_forall in Hu. destruct (Hu _ Hin) as (e & He & _).
      exists e. split; [done|].
      destruct (contains "@" e) eqn:Hc; [|done].
      destruct Hn. exists e. done.
Qed.

(** X11: a user record without email makes transform_parties raise
    KeyError, the users before it being well formed; no party list is
    returned then. *)
Theorem transform_parties_needs_email (good others : list Entity) (bad : Entity) :
  Forall email_has_at good → bad !! "email" = None →
  transform_parties (good ++ bad :: others) = Raise (KeyError "email").
Proof.
  intros Hg Hbad. unfold transform_parties.
  rewrite for_each_app, party_users_loop by done. simpl.
  unfold getitem. by rewrite Hbad.
Qed.

End users_parties.

Lemma transformed_users_reach_parties_sample :
  transform_users [ {[ "name" := "Alice"; "email" := "alice@intel.com" ]} ]
  = Ok [ {[ "username" := "alice@intel.com"; "name" := "Alice";
            "email" := "alice@intel.com" ]} ] ∧
  ((∃ r, transform_parties (imports := Sample.imports)
           [ {[ "username" := "alice@intel.com"; "name" := "Alice";
                "email" := "alice@intel.com" ]} ] = Ok r) ∨
   transform_parties (imports := Sample.imports)
     [ {[ "username" := "alice@intel.com"; "name" := "Alice";
          "email" := "alice@intel.com" ]} ] = Raise IndexError).
Proof.
  assert (H : transform_users [ {[ "name" := "Alice"; "email" := "alice@intel.com" ]} ]
              = Ok [ {[ "username" := "alice@intel.com"; "name" := "Alice";
                        "email" := "alice@intel.com" ]} ])
    by (vm_compute; reflexivity).
  split; [exact H|].
  exact (proj2 (transformed_users_reach_parties (imports := Sample.imports) _ _ H)).
Defined.

Lemma transform_parties_needs_email_sample :
  (Forall email_has_at [ ({[ "email" := "alice@intel.com" ]} : Entity) ] ∧
   ({[ "name" := "Bob" ]} : Entity) !! "email" = None) ∧
  transform_parties (imports := Sample.imports)
    ([ {[ "email" := "alice@intel.com" ]} ] ++ {[ "name" := "Bob" ]} :: [])
  = Raise (KeyError "email").
Proof.
  assert (H : Forall email_has_at [ ({[ "email" := "alice@intel.com" ]} : Entity) ]).
  { repeat constructor. eexists. split; [reflexivity|by vm_compute]. }
  assert (Hb : ({[ "name" := "Bob" ]} : Entity) !! "email" = None)
    by (vm_compute; reflexivity).
  split; [split; [exact H|exact Hb]|].
  exact (transform_parties_needs_email (imports := Sample.imports) _ [] _ H Hb).
Defined.

(** ** The cache and the transforms read the same strings *)

Section same_strings.
Context {imports : Imports} {UC : Type} {cache : UserCacheOps UC}.

Lemma elem_of_role_pairs (uc : UC) key key' user ustrings :
  (key', user) ∈ role_pairs uc key ustrings
  ↔ key' = key ∧ user ≠ ∅ ∧
    ∃ ustring, ustring ∈ ustrings ∧ UserCache_get uc ustring = Some user.
Proof.
  unfold role_pairs. rewrite list_elem_of_omap. split.
  - intros (ustring & Hin & Hu).
    destruct (UserCache_get uc ustring) as [u|] eqn:Hget; [|done].
    unfold truthy in Hu. case_bool_decide; [|done].
    injection Hu as <- <-. eauto.
  - intros (-> & Hne & ustring & Hin & Hget). exists ustring.
    split; [done|]. rewrite Hget. unfold truthy.
    by rewrite bool_decide_true.
Qed.

(** The users of the pairs of one block are the non-empty answers of the
    cache for the values of the block's role fields. *)
Lemma block_pairs_users (uc : UC) (keyf : string → Entity) marker data user :
  (∃ key, (key, user) ∈ role_keys marker data ≫= λ role,
            role_pairs uc (keyf role) (iter_item marker data role))
  ↔ user ≠ ∅ ∧
    ∃ ustring, ustring ∈ (role_keys marker data ≫= λ role, iter_item marker data role) ∧
               UserCache_get uc ustring = Some user.
Proof.
  split.
  - intros (key & (role & Hin & Hrole)%list_elem_of_bind).
    apply elem_of_role_pairs in Hin as (_ & Hne & ustring & Hin & Hget).
    split; [done|]. exists ustring. split; [|done].
    apply list_elem_of_bind. eauto.
  - intros (Hne & ustring & (role & Hin & Hrole)%list_elem_of_bind & Hget).
    exists (keyf role). apply list_elem_of_bind. exists role. split; [|done].
    apply elem_of_role_pairs. eauto.
Qed.

Lemma domain_block_users (uc : UC) data user :
  (∃ key, (key, user) ∈ domainrole_users (domain_block_rows uc data)
                        ++ subdomainrole_users (domain_block_rows uc data))
  ↔ user ≠ ∅ ∧
    ∃ ustring, ustring ∈ (role_keys "DOMAIN" data ≫= λ role,
                            iter_item "DOMAIN" data role) ∧
               UserCache_get uc ustring = Some user.
Proof.
  unfold domain_block_rows.
  destruct (has_key "DOMAIN" data "PARENT").
  - destruct (parse_name (marker_value data)) as [dname sname]. simpl.
    apply (block_pairs_users uc (subdomainrole_key dname sname)).
  - simpl. rewrite app_nil_r.
    apply (block_pairs_users uc (domainrole_key (marker_value data))).
Qed.

(** The users of the role pairs are the non-empty answers of the cache for
    the values of the role fields. *)
Lemma role_pair_users (domains_data trees_data : list Block) (uc : UC)
    (tt : TreeTables) :
  transform_trees trees_data uc = Ok tt →
  ∃ t, transform_domains domains_data uc = Ok t ∧
    ∀ user,
      (∃ key, (key, user) ∈ domainrole_users t ++ subdomainrole_users t
                            ++ treerole_users tt)
      ↔ user ≠ ∅ ∧
        ∃ ustring, ustring ∈ identity_strings domains_data trees_data ∧
                   UserCache_get uc ustring = Some user.
Proof.
  intros Hok. pose proof (transform_trees_Ok_readable _ _ _ Hok) as Hd.
  rewrite (transform_trees_rows _ _ Hd) in Hok. injection Hok as <-.
  eexists. split; [apply transform_domains_rows|].
  intros user. cbn [domainrole_users subdomainrole_users treerole_users
                    domain_rows tree_rows].
  unfold identity_strings. split.
  - intros (key & Hin). rewrite !elem_of_app in Hin.
    destruct Hin as [Hin|[Hin|Hin]];
      apply list_elem_of_bind in Hin as (data & Hin & Hdata).
    + destruct (proj1 (domain_block_users uc data user)) as (Hne & s & Hs & Hget).
      { exists key. apply elem_of_app. by left. }
      split; [done|]. exists s. split; [|done].
      apply elem_of_app. left. apply list_elem_of_bind. eauto.
    + destruct (proj1 (domain_block_users uc data user)) as (Hne & s & Hs & Hget).
      { exists key. apply elem_of_app. by right. }
      split; [done|]. exists s. split; [|done].
      apply elem_of_app. left. apply list_elem_of_bind. eauto.
    + destruct (proj1 (block_pairs_users uc (treerole_key (marker_value data))
                         "TREE PATH" data user)) as (Hne & s & Hs & Hget).
      { by exists key. }
      split; [done|]. exists s. split; [|done].
      apply elem_of_app. right. apply list_elem_of_bind. eauto.
  - intros (Hne & s & Hs & Hget). apply elem_of_app in Hs as [Hs|Hs];
      apply list_elem_of_bind in Hs as (data & Hs & Hdata).
    + destruct (proj2 (domain_block_users uc data user)) as (key & Hin).
      { split; [done|]. eauto. }
      exists key. rewrite !elem_of_app.
      apply elem_of_app in Hin as [Hin|Hin]; [left|right; left];
        apply list_elem_of_bind; eauto.
    + destruct (proj2 (block_pairs_users uc (treerole_key (marker_value data))
                         "TREE PATH" data user)) as (key & Hin).
      { split; [done|]. eauto. }
      exists key. rewrite !elem_of_app. right; right.
      apply list_elem_of_bind. exists data. by split.
Qed.

(** The strings build_user_cache registers are the values of the role
    fields of the blocks, each as often as it occurs. *)
Lemma identity_strings_Permutation (domains_data trees_data : list Block) :
  identity_strings domains_data trees_data
  ≡ₚ (domains_data ≫= λ data,
        elements (role_set "DOMAIN" data) ≫= λ role,
          iter_item "DOMAIN" data role)
     ++ (trees_data ≫= λ data,
           elements (role_set "TREE PATH" data) ≫= λ role,
             iter_item "TREE PATH" data role).
Proof.
  unfold identity_strings.
  apply Permutation_app; apply bind_Permutation_ext; intros data;
    by rewrite role_keys_Permutation.
Qed.

(** X12: the transforms look up the strings build_user_cache registers.
    The cache is built by registering, one after the other, the values of
    the role fields of the blocks, each as often as it occurs; their order
    follows the order in which Python iterates the role keys of a block,
    which is not fixed, so the list is given up to the order of its
    elements.  A record is the user of a role pair of transform_domains
    or transform_trees exactly when it is not empty and is the cache's
    answer for one of these values.  No identity of the input that the
    cache knows is left without a role, and no role goes to a user that
    the input does not name. *)
Theorem role_users_are_the_cached_identities
    (domains_data trees_data : list Block) (uc : UC) (tt : TreeTables) :
  transform_trees trees_data uc = Ok tt →
  ∃ t strings, transform_domains domains_data uc = Ok t ∧
    build_user_cache (UC := UC) domains_data trees_data
    = foldl UserCache_update UserCache_new strings ∧
    strings
    ≡ₚ (domains_data ≫= λ data,
          elements (role_set "DOMAIN" data) ≫= λ role,
            iter_item "DOMAIN" data role)
       ++ (trees_data ≫= λ data,
             elements (role_set "TREE PATH" data) ≫= λ role,
               iter_item "TREE PATH" data role) ∧
    ∀ user,
      (∃ key, (key, user) ∈ domainrole_users t ++ subdomainrole_users t
                            ++ treerole_users tt)
      ↔ user ≠ ∅ ∧
        ∃ ustring, ustring ∈ strings ∧ UserCache_get uc ustring = Some user.
Proof.
  intros Hok.
  destruct (role_pair_users domains_data trees_data uc tt Hok) as (t & Ht & Hu).
  exists t, (identity_strings domains_data trees_data).
  split_and!; [done | apply build_user_cache_strings
              | apply identity_strings_Permutation | done].
Qed.

End same_strings.

Lemma role_users_are_the_cached_identities_sample :
  transform_trees (imports := Sample.imports)
    [ {| marker_value := "platform/kernel/linux";
         fields := {[ "MAINTAINER" := ["Alice <alice@intel.com>"] ]} |} ]
    (build_user_cache (imports := Sample.imports)
       (UC := IdentityCache.UserCache) []
       [ {| marker_value := "platform/kernel/linux";
         fields := {[ "MAINTAINER" := ["Alice <alice@intel.com>"] ]} |} ])
  = Ok {| trees := [ {[ "gitpath" := "platform/kernel/linux";
                     "subdomain__name" := NONAME;
                     "subdomain__domain__name" := NONAME ]} ];
       tree_licenses := [];
       treeroles := [ {[ "role" := "MAINTAINER";
                         "gittree__gitpath" := "platform/kernel/linux";
                         "name" := "MAINTAINER: platform/kernel/linux" ]} ];
       treerole_users :=
         [ ({[ "role" := "MAINTAINER";
               "gittree__gitpath" := "platform/kernel/linux" ]},
            {[ "name" := "Alice"; "email" := "alice@intel.com" ]}) ] |} ∧
  ∃ t strings,
    transform_domains (imports := Sample.imports) []
      (build_user_cache (imports := Sample.imports)
       (UC := IdentityCache.UserCache) []
       [ {| marker_value := "platform/kernel/linux";
         fields := {[ "MAINTAINER" := ["Alice <alice@intel.com>"] ]} |} ]) = Ok t ∧
    build_user_cache (imports := Sample.imports) (UC := IdentityCache.UserCache)
      [] [ {| marker_value := "platform/kernel/linux";
         fields := {[ "MAINTAINER" := ["Alice <alice@intel.com>"] ]} |} ]
    = foldl UserCache_update UserCache_new strings ∧
    strings
    ≡ₚ ([] ≫= λ data,
          elements (role_set (imports := Sample.imports) "DOMAIN" data) ≫= λ role,
            iter_item "DOMAIN" data role)
       ++ ([ {| marker_value := "platform/kernel/linux";
         fields := {[ "MAINTAINER" := ["Alice <alice@intel.com>"] ]} |} ] ≫= λ data,
             elements (role_set (imports := Sample.imports) "TREE PATH" data)
               ≫= λ role, iter_item "TREE PATH" data role) ∧
    ∀ user,
      (∃ key, (key, user) ∈ domainrole_users t ++ subdomainrole_users t
                ++ treerole_users
                     {| trees := [ {[ "gitpath" := "platform/kernel/linux";
                     "subdomain__name" := NONAME;
                     "subdomain__domain__name" := NONAME ]} ];
       tree_licenses := [];
       treeroles := [ {[ "role" := "MAINTAINER";
                         "gittree__gitpath" := "platform/kernel/linux";
                         "name" := "MAINTAINER: platform/kernel/linux" ]} ];
       treerole_users :=
         [ ({[ "role" := "MAINTAINER";
               "gittree__gitpath" := "platform/kernel/linux" ]},
            {[ "name" := "Alice"; "email" := "alice@intel.com" ]}) ] |})
      ↔ user ≠ ∅ ∧
        ∃ ustring,
          ustring ∈ strings ∧
          UserCache_get
            (build_user_cache (imports := Sample.imports)
       (UC := IdentityCache.UserCache) []
       [ {| marker_value := "platform/kernel/linux";
         fields := {[ "MAINTAINER" := ["Alice <alice@intel.com>"] ]} |} ]) ustring = Some user.
Proof.
  assert (H : transform_trees (imports := Sample.imports)
                [ {| marker_value := "platform/kernel/linux";
         fields := {[ "MAINTAINER" := ["Alice <alice@intel.com>"] ]} |} ]
                (build_user_cache (imports := Sample.imports)
       (UC := IdentityCache.UserCache) []
       [ {| marker_value := "platform/kernel/linux";
         fields := {[ "MAINTAINER" := ["Alice <alice@intel.com>"] ]} |} ])
              = Ok {| trees := [ {[ "gitpath" := "platform/kernel/linux";
                     "subdomain__name" := NONAME;
                     "subdomain__domain__name" := NONAME ]} ];
       tree_licenses := [];
       treeroles := [ {[ "role" := "MAINTAINER";
                         "gittree__gitpath" := "platform/kernel/linux";
                         "name" := "MAINTAINER: platform/kernel/linux" ]} ];
       treerole_users :=
         [ ({[ "role" := "MAINTAINER";
               "gittree__gitpath" := "platform/kernel/linux" ]},
            {[ "name" := "Alice"; "email" := "alice@intel.com" ]}) ] |})
    by (vm_compute; reflexivity).
  split; [exact H|].
  exact (role_users_are_the_cached_identities (imports := Sample.imports)
           [] _ _ _ H).
Defined.

(** ** from_unicode: what stops it before the load *)

Lemma transform_users_outcomes acc ucusers :
  (Forall takes_username ucusers ∧
   for_each (λ users i, u ← with_username i; Ok (users ++ [u])) acc ucusers
   = Ok (acc ++ ((λ i, <["username" := default "" (i !! "email")]> i) <$> ucusers))) ∨
  for_each (λ users i, u ← with_username i; Ok (users ++ [u])) acc ucusers
  = Raise (KeyError "email") ∨
  for_each (λ users i, u ← with_username i; Ok (users ++ [u])) acc ucusers
  = Raise TypeError.
Proof.
  revert acc. induction ucusers as [|i l IH]; intros acc.
  - left. split; [done|]. simpl. by rewrite app_nil_r.
  - simpl. destruct (with_username i) as [u|e] eqn:Hw; simpl.
    + unfold with_username, getitem in Hw.
      destruct (i !! "email") as [email|] eqn:He; simpl in Hw; [|done].
      case_bool_decide as Hu; [done|]. injection Hw as <-.
      destruct (IH (acc ++ [<["username" := email]> i])) as [[Hall Hok]|Hraise].
      * left. split.
        -- constructor; [|done]. split; [done|]. by apply eq_None_not_Some.
        -- rewrite Hok. simpl. by rewrite <- app_assoc.
      * by right.
    + right. unfold with_username, getitem in Hw.
      destruct (i !! "email") as [email|]; simpl in Hw.
      * case_bool_decide; [|done]. injection Hw as <-. by right.
      * injection Hw as <-. by left.
Qed.

Section aborts.
Context {imports : Imports} {UC : Type} {cache : UserCacheOps UC}.
Context {W : Type} {loader : Loader W}.

(** X13: a cached identity whose email has no "@" stops the import before
    the load.  The two texts being parsed, from_unicode raises KeyError
    or TypeError (from transform_users), or IndexError (from
    transform_trees or transform_parties), and the world is as it was:
    whatever the loader is, none of its operations has run. *)
Theorem from_unicode_rejects_email_without_at
    (domain_str gittree_str : string) (domains_data trees_data : list Block)
    (w : W) :
  parse_blocks domain_str "D" MAPPING = Ok domains_data →
  parse_blocks gittree_str "T" MAPPING = Ok trees_data →
  Exists (λ i : Entity, ∃ email, i !! "email" = Some email ∧
                                 contains "@" email = false)
    (UserCache_all (build_user_cache (UC := UC) domains_data trees_data)) →
  ∃ e, from_unicode (UC := UC) domain_str gittree_str w = (w, Raise e) ∧
       (e = KeyError "email" ∨ e = TypeError ∨ e = IndexError).
Proof.
  intros Hd Ht Hex. rewrite from_unicode_phases. unfold extract.
  rewrite Hd, Ht. simpl.
  set (uc := build_user_cache domains_data trees_data) in *.
  unfold transform_users.
  destruct (transform_users_outcomes [] (UserCache_all uc))
    as [[Hall ->]|[-> | ->]]; simpl; [|eauto..].
  pose proof (transform_domains_rows domains_data uc) as Hrows.
  cbv zeta in Hrows. rewrite Hrows. simpl.
  destruct (decide (Forall domain_readable trees_data)) as [Hr|Hr].
  - rewrite transform_trees_rows by done. simpl.
    unfold transform_parties. rewrite party_users_loop_fails.
    + simpl. eauto.
    + apply Forall_fmap. eapply Forall_impl; [exact Hall|].
      intros i [[email He] _]. simpl. rewrite lookup_insert_ne by done. eauto.
    + apply Exists_fmap. eapply Exists_impl; [exact Hex|].
      intros i (email & He & Hc). simpl. exists email.
      by rewrite lookup_insert_ne.
  - apply not_Forall_Exists in Hr; [|apply _].
    assert (Hempty : Exists (λ data, fields data !! "DOMAIN" = Some []) trees_data).
    { eapply Exists_impl; [exact Hr|]. intros data Hn. simpl in Hn.
      by apply dec_stable in Hn. }
    unfold transform_trees. rewrite (transform_trees_unreadable uc _ _ Hempty).
    simpl. eauto.
Qed.

End aborts.

Lemma from_unicode_rejects_email_without_at_sample :
  ∃ e, from_unicode (imports := Sample.imports) (UC := IdentityCache.UserCache)
         (loader := Engine.loader Sample.schema)
         ("D: System" +:+ Sample.nl +:+ "M: Alice <alice>" +:+ Sample.nl) ""
         Sample.world
       = (Sample.world, Raise e) ∧
       (e = KeyError "email" ∨ e = TypeError ∨ e = IndexError).
Proof.
  apply (from_unicode_rejects_email_without_at
           (imports := Sample.imports) (UC := IdentityCache.UserCache)
           _ _
           [ {| marker_value := "System";
                fields := {[ "MAINTAINER" := ["Alice <alice>"] ]} |} ] []).
  - vm_compute. reflexivity.
  - vm_compute. reflexivity.
  - apply Exists_exists.
    exists ({[ "name" := "Alice"; "email" := "alice" ]} : Entity).
    split.
    + assert (Hall : UserCache_all
                (build_user_cache (imports := Sample.imports)
                   (UC := IdentityCache.UserCache)
                   [ {| marker_value := "System";
                        fields := {[ "MAINTAINER" := ["Alice <alice>"] ]} |} ] [])
              = [ {[ "name" := "Alice"; "email" := "alice" ]} ])
        by (vm_compute; reflexivity).
      rewrite Hall. left.
    + exists "alice". split; vm_compute; reflexivity.
Defined.

(** ** from_unicode: the licenses *)

Section licenses.
Context {W : Type} {inner : Loader W}.
Context {imports : Imports} {UC : Type} {cache : UserCacheOps UC}.

(** X14: whatever the texts and the loader, from_unicode never syncs
    License rows and never runs a deletion of License rows: the licenses
    that the trees name are only referred to.  The one call that names
    License is the sync of the relation of GitTree with License, which a
    run that returns has made. *)
Theorem from_unicode_only_refers_to_licenses (domain_str gittree_str : string)
    (w : W) :
  let run := from_unicode (UC := UC) (loader := Traced.loader)
               domain_str gittree_str (w, []) in
  (EvSyncEntity License ∉ run.1.2) ∧
  (EvDelete License ∉ run.1.2) ∧
  (∀ A, EvSyncNnr A License ∈ run.1.2 → A = GitTree) ∧
  (run.2 = Ok tt → EvSyncNnr GitTree License ∈ run.1.2).
Proof.
  intros run.
  destruct (from_unicode_logged (UC := UC) domain_str gittree_str w)
    as [[k Hk] Hall].
  fold run in Hk, Hall.
  assert (Hsub : ∀ ev, ev ∈ run.1.2 → ev ∈ calls).
  { intros ev Hin. rewrite Hk in Hin. by eapply subseteq_take. }
  assert (Hnot : ∀ ev, ev ∉ calls → ev ∉ run.1.2) by (intros ev Hn Hin; auto).
  split_and!.
  - apply Hnot. unfold calls, sync_calls, delete_calls. simpl.
    intros Hin. repeat (apply elem_of_cons in Hin as [?|Hin]; [discriminate|]).
    by apply elem_of_nil in Hin.
  - apply Hnot. unfold calls, sync_calls, delete_calls. simpl.
    intros Hin. repeat (apply elem_of_cons in Hin as [?|Hin]; [discriminate|]).
    by apply elem_of_nil in Hin.
  - intros A Hin. apply Hsub in Hin.
    unfold calls, sync_calls, delete_calls in Hin. simpl in Hin.
    repeat (apply elem_of_cons in Hin as [Heq|Hin];
            [first [discriminate | by injection Heq]|]).
    by apply elem_of_nil in Hin.
  - intros Hok. rewrite (Hall Hok). unfold calls, sync_calls, delete_calls.
    simpl. repeat first [left | right].
Qed.

End licenses.

(** ** from_file *)

(** The text of what a file object returned: a byte string is decoded as
    utf8, a unicode string is taken as it is. *)
Definition utf8_text {imports : Imports} (content : pystring) : result string :=
  match content with
  | Str bytes => decode bytes "utf8"
  | Unicode text => Ok text
  end.

(** X15: from_file imports what the two file objects return, byte strings
    being decoded as utf8 and unicode strings taken as they are, whatever
    the mix; the caller cannot choose another coding.  The content of the
    domain file is decoded first: when it does not decode, or when the
    content of the tree file does not, from_file raises that exception
    and the world is as it was. *)
Theorem from_file_decodes_utf8 {imports : Imports} {UC : Type}
    {cache : UserCacheOps UC} {W : Type} {loader : Loader W}
    (dfile tfile : File) (w : W) :
  from_file (UC := UC) dfile tfile w
  = match utf8_text (read dfile) with
    | Raise e => (w, Raise e)
    | Ok domain_str =>
        match utf8_text (read tfile) with
        | Raise e => (w, Raise e)
        | Ok gittree_str => from_unicode (UC := UC) domain_str gittree_str w
        end
    end.
Proof.
  unfold from_file, from_string, utf8_text, mbind, M_bind, lift. simpl.
  destruct (read dfile) as [dbytes|dtext], (read tfile) as [tbytes|ttext].
  - destruct (decode dbytes "utf8"); [|done]. by destruct (decode tbytes "utf8").
  - by destruct (decode dbytes "utf8").
  - by destruct (decode tbytes "utf8").
  - done.
Qed.
